(** * A shallow embedding of the Store layer of the app store (src/src/db.ts)

    The Store wraps an IndexedDB object store "apps" (keyPath "id",
    autoIncrement) behind a lazily created, cached handle promise.  The
    object store itself is modelled after the IndexedDB semantics the code
    relies on (key generator, in-line keys, index ordering), and the four
    exported operations [addApp], [getAllApps], [getAppsByCategory] and
    [deleteApp] are translated over it.  Every asynchronous operation is
    modelled as one atomic state transition; the outcome of [openDB] is an
    input of the transition (it is decided by the browser, not the code). *)

From Stdlib Require Import List String ZArith QArith Bool Lia Permutation Sorted.
Import ListNotations.

Open Scope Z_scope.

Module Db.

(** ** Data model: [interface App] and [CATEGORIES] *)

Definition dbName : string := "AppStoreDB".
Definition dbVersion : Z := 5.

(** The record type.  The TypeScript union type of [category] is erased at
    run time, so the field holds a string; [is_category] is the union. *)
Record App := mkApp {
  id : option Z;
  name : string;
  description : string;
  file : list Byte.byte;
  fileName : string;
  fileType : string;
  fileSize : Z;
  uploadDate : string;
  ownerId : string;
  category : string;
  icon : option (list Byte.byte);
  iconType : option string
}.

Definition CATEGORIES : list string :=
  ["Games"; "Tools"; "Music"; "Images"; "Videos"; "Other"]%string.

Definition is_category (c : string) : bool :=
  existsb (String.eqb c) CATEGORIES.

(** [{ ...app, uploadDate: d }] *)
Definition with_uploadDate (d : string) (a : App) : App :=
  mkApp (id a) (name a) (description a) (file a) (fileName a) (fileType a)
    (fileSize a) d (ownerId a) (category a) (icon a) (iconType a).

(** The key generator writing the generated key into the in-line key path. *)
Definition with_id (k : Z) (a : App) : App :=
  mkApp (Some k) (name a) (description a) (file a) (fileName a) (fileType a)
    (fileSize a) (uploadDate a) (ownerId a) (category a) (icon a) (iconType a).

(** ** The IndexedDB object store "apps" *)

Inductive error :=
| ConstraintError
| OpenError (msg : string).

Inductive result (A : Type) :=
| Ok (a : A)
| Err (e : error).
Arguments Ok {A} a.
Arguments Err {A} e.

(** Records are kept in primary-key order, as an object store does. *)
Record ObjectStore := mkObjectStore {
  records : list App;
  current_number : Z   (* the key generator's current number *)
}.

Definition empty_store : ObjectStore := mkObjectStore [] 1.

(** The primary key, read through keyPath "id". *)
Definition key (a : App) : Z :=
  match id a with Some k => k | None => 0 end.

Definition MAX_KEY : Z := 2 ^ 53.

Fixpoint store_insert (r : App) (l : list App) : list App :=
  match l with
  | [] => [r]
  | y :: l' => if key r <? key y then r :: l else y :: store_insert r l'
  end.

Definition has_key (k : Z) (l : list App) : bool :=
  existsb (fun r => key r =? k) l.

(** [IDBObjectStore.add]: an in-line key present in the value is used as is
    (and possibly bumps the key generator); otherwise the generator's
    current number is used and written into the value. *)
Definition os_add (os : ObjectStore) (v : App) : result (ObjectStore * Z) :=
  match id v with
  | Some k =>
      if has_key k (records os) then Err ConstraintError
      else
        let m := Z.min k MAX_KEY in
        Ok (mkObjectStore (store_insert v (records os))
              (if current_number os <=? m then m + 1 else current_number os), k)
  | None =>
      let k := current_number os in
      if MAX_KEY <? k then Err ConstraintError
      else Ok (mkObjectStore (store_insert (with_id k v) (records os)) (k + 1), k)
  end.

(** [IDBObjectStore.delete] with a key: removes the record if present. *)
Definition os_delete (os : ObjectStore) (k : Z) : ObjectStore :=
  mkObjectStore (filter (fun r => negb (key r =? k)) (records os))
    (current_number os).

Inductive IndexName := IUploadDate | IOwnerId | ICategory.

Definition index_key (idx : IndexName) (a : App) : string :=
  match idx with
  | IUploadDate => uploadDate a
  | IOwnerId => ownerId a
  | ICategory => category a
  end.

(** Index order: by index key, ties by primary key. *)
Definition index_le (idx : IndexName) (a b : App) : bool :=
  (index_key idx a <? index_key idx b)%string
  || (String.eqb (index_key idx a) (index_key idx b) && (key a <=? key b)).

Fixpoint insert_by {A} (le : A -> A -> bool) (x : A) (l : list A) : list A :=
  match l with
  | [] => [x]
  | y :: l' => if le x y then x :: l else y :: insert_by le x l'
  end.

Definition sort_by {A} (le : A -> A -> bool) (l : list A) : list A :=
  fold_right (insert_by le) [] l.

(** [getAllFromIndex(store, index, query?)] *)
Definition os_getAllFromIndex (os : ObjectStore) (idx : IndexName)
    (query : option string) : list App :=
  filter (fun r => match query with
                   | None => true
                   | Some q => String.eqb (index_key idx r) q
                   end)
    (sort_by (index_le idx) (records os)).

(** ** The cached handle and the four Store operations *)

Inductive promise := Fulfilled | Rejected (e : error).

Record Store := mkStore {
  dbPromise : option promise;
  db : ObjectStore
}.

Definition init_store : Store := mkStore None empty_store.

(** What the engine does with the request an operation issues on the open
    database: it completes, or it fails (quota, corruption, blocked access),
    aborting its transaction so that the object store is left as it was.
    Like the outcome of [openDB], this is decided by the browser. *)
Inductive request := Completes | Fails (e : error).

Definition set_dbPromise (p : option promise) (s : Store) : Store :=
  mkStore p (db s).

Definition set_db (os : ObjectStore) (s : Store) : Store :=
  mkStore (dbPromise s) os.

(** [initDB]: [opened] is what [openDB] settles to if it is called now. *)
Definition initDB (opened : promise) (s : Store) : Store * promise :=
  match dbPromise s with
  | Some p => (s, p)
  | None => (set_dbPromise (Some opened) s, opened)
  end.

(** [getDB]: on failure the cached promise is reset before rethrowing. *)
Definition getDB (opened : promise) (s : Store) : Store * result unit :=
  let (s1, p) := initDB opened s in
  match p with
  | Fulfilled => (s1, Ok tt)
  | Rejected e => (set_dbPromise None s1, Err e)
  end.

(** Each operation: [getDB], then one request on the open database.  A
    failed request is rethrown by the operation's catch, which (unlike
    [getDB]'s) leaves [dbPromise] alone. *)
Definition addApp (opened : promise) (rq : request) (now : string) (app : App)
    (s : Store) : Store * result Z :=
  match getDB opened s with
  | (s1, Err e) => (s1, Err e)
  | (s1, Ok _) =>
      match rq with
      | Fails e => (s1, Err e)
      | Completes =>
          match os_add (db s1) (with_uploadDate now app) with
          | Err e => (s1, Err e)
          | Ok (os', k) => (set_db os' s1, Ok k)
          end
      end
  end.

Definition getAllApps (opened : promise) (rq : request) (s : Store)
    : Store * result (list App) :=
  match getDB opened s with
  | (s1, Err e) => (s1, Err e)
  | (s1, Ok _) =>
      match rq with
      | Fails e => (s1, Err e)
      | Completes => (s1, Ok (os_getAllFromIndex (db s1) IUploadDate None))
      end
  end.

Definition getAppsByCategory (opened : promise) (rq : request) (c : string)
    (s : Store) : Store * result (list App) :=
  match getDB opened s with
  | (s1, Err e) => (s1, Err e)
  | (s1, Ok _) =>
      match rq with
      | Fails e => (s1, Err e)
      | Completes => (s1, Ok (os_getAllFromIndex (db s1) ICategory (Some c)))
      end
  end.

Definition deleteApp (opened : promise) (rq : request) (k : Z) (s : Store)
    : Store * result unit :=
  match getDB opened s with
  | (s1, Err e) => (s1, Err e)
  | (s1, Ok _) =>
      match rq with
      | Fails e => (s1, Err e)
      | Completes => (set_db (os_delete (db s1) k) s1, Ok tt)
      end
  end.

(** The [blocking] and [terminated] callbacks drop the cached handle. *)
Definition blocking (s : Store) : Store := set_dbPromise None s.
Definition terminated (s : Store) : Store := set_dbPromise None s.

(** ** Runs of Store operations

    One Store call per step; the [promise] argument is what [openDB] would
    settle to if the call has to open the database, the [request] argument
    what the engine does with the call's request. *)

Inductive op :=
| OpAdd (opened : promise) (rq : request) (now : string) (app : App)
| OpGetAll (opened : promise) (rq : request)
| OpGetByCategory (opened : promise) (rq : request) (c : string)
| OpDelete (opened : promise) (rq : request) (k : Z)
| OpBlocking
| OpTerminated.

(** A step, with the identifier returned by a successful [addApp]. *)
Definition step (x : op) (s : Store) : Store * option Z :=
  match x with
  | OpAdd o rq now a =>
      let (s1, r) := addApp o rq now a s in
      (s1, match r with Ok k => Some k | Err _ => None end)
  | OpGetAll o rq => (fst (getAllApps o rq s), None)
  | OpGetByCategory o rq c => (fst (getAppsByCategory o rq c s), None)
  | OpDelete o rq k => (fst (deleteApp o rq k s), None)
  | OpBlocking => (blocking s, None)
  | OpTerminated => (terminated s, None)
  end.

(** The identifiers returned by the successful [addApp] calls of a run. *)
Fixpoint run (s : Store) (ops : list op) : Store * list Z :=
  match ops with
  | [] => (s, [])
  | x :: ops' =>
      let (s1, r) := step x s in
      let (s2, ks) := run s1 ops' in
      (s2, match r with Some k => k :: ks | None => ks end)
  end.

Definition add_without_id (x : op) : bool :=
  match x with
  | OpAdd _ _ _ a => match id a with None => true | Some _ => false end
  | _ => true
  end.

Section Reachable.

(** What the callers of [addApp] are assumed to pass. *)
Variable accepted : App -> bool.

Definition op_accepted (x : op) : bool :=
  match x with
  | OpAdd _ _ _ a => accepted a
  | _ => true
  end.

Inductive reachable : Store -> Prop :=
| reach_init : reachable init_store
| reach_step (x : op) (s : Store) :
    reachable s -> op_accepted x = true -> reachable (fst (step x s)).

End Reachable.

(** Any value the type [App] admits. *)
Definition any_app (_ : App) : bool := true.

(** Values whose [category] is a member of the TypeScript union. *)
Definition typed_app (a : App) : bool := is_category (category a).

(** ** The schema set up by the [upgrade] callback of [initDB] *)

Record StoreSchema := mkStoreSchema {
  keyPath : string;
  autoIncrement : bool;
  indexNames : list string
}.

Definition createIndex (n : string) (st : StoreSchema) : StoreSchema :=
  mkStoreSchema (keyPath st) (autoIncrement st) (indexNames st ++ [n]).

Definition contains (n : string) (l : list string) : bool :=
  existsb (String.eqb n) l.

(** [upgrade(database, oldVersion)] restricted to the "apps" store:
    [None] when the database has no store of that name. *)
Definition upgrade (oldVersion : Z) (apps : option StoreSchema) : option StoreSchema :=
  let apps1 :=
    match apps with
    | None =>
        Some (createIndex "category" (createIndex "ownerId"
                (createIndex "uploadDate" (mkStoreSchema "id" true []))))
    | Some st => Some st
    end in
  if oldVersion <? 5 then
    match apps1 with
    | Some st =>
        Some (if contains "category" (indexNames st) then st
              else createIndex "category" st)
    | None => None
    end
  else apps1.

(** [openDB(dbName, dbVersion, ...)]: the callback runs when the stored
    version is older than [dbVersion]. *)
Definition open_schema (storedVersion : Z) (apps : option StoreSchema)
    : option StoreSchema :=
  if storedVersion <? dbVersion then upgrade storedVersion apps else apps.

(** ** The object store invariant

    Records are strictly ordered by primary key, every stored record carries
    its key, and the key generator is ahead of every stored key unless it
    is exhausted. *)
Definition wf (os : ObjectStore) : Prop :=
  StronglySorted (fun a b => key a < key b) (records os) /\
  Forall (fun r => id r <> None) (records os) /\
  (Forall (fun r => key r < current_number os) (records os)
   \/ MAX_KEY < current_number os).

(** The record carries identifier [k]. *)
Definition has_id (k : Z) (r : App) : bool :=
  match id r with Some k' => k' =? k | None => false end.

(** Equal in every field except [id] and [uploadDate]. *)
Definition same_content (a b : App) : Prop :=
  name a = name b /\ description a = description b /\ file a = file b /\
  fileName a = fileName b /\ fileType a = fileType b /\
  fileSize a = fileSize b /\ ownerId a = ownerId b /\
  category a = category b /\ icon a = icon b /\ iconType a = iconType b.

(** What awaiting a settled [openDB] promise yields. *)
Definition settle (p : promise) : result unit :=
  match p with Fulfilled => Ok tt | Rejected e => Err e end.

(** ** Sample inputs *)

Definition sample (c : string) : App :=
  mkApp None "Calculator" "adds numbers" [Byte.x01; Byte.x02] "calc.html"
    "text/html" 2 "caller-date" "user1" c None None.

Definition demo_ops : list op :=
  [OpAdd Fulfilled Completes "2026-01-01T10:00:00.000Z" (sample "Games");
   OpAdd Fulfilled Completes "2026-01-01T10:00:01.000Z" (sample "Tools");
   OpAdd Fulfilled Completes "2026-01-01T10:00:02.000Z" (sample "Games")].

Definition demo_store : Store := fst (run init_store demo_ops).

(** A record read back from the store (so carrying its [id]) added again
    after it was deleted. *)
Definition readd_ops : list op :=
  [OpAdd Fulfilled Completes "2026-01-01T10:00:00.000Z" (sample "Tools");
   OpDelete Fulfilled Completes 1;
   OpAdd Fulfilled Completes "2026-01-01T10:00:05.000Z" (with_id 1 (sample "Tools"))].

End Db.

(** * The components that call the Store *)

Module Ui.
Import Db.

(** ** AppList (src/src/components/AppList.tsx) *)

(** The state [loadApps] reads and writes.  [errorMsg] holds the caught
    error, whose message the component shows. *)
Record ListState := mkListState {
  selectedCategory : string;
  apps : list App;
  loading : bool;
  errorMsg : option error
}.

(** The values a [loadApps] callback closes over.  [useCallback] creates a
    new callback when [selectedCategory] or [loading] change, so a copy held
    elsewhere (by [handleDelete], or by the polling interval) may carry
    older values than the current state. *)
Record LoadCallback := mkLoadCallback {
  cb_category : string;
  cb_loading : bool
}.

(** The callback created by the latest render of [st]. *)
Definition current_callback (st : ListState) : LoadCallback :=
  mkLoadCallback (selectedCategory st) (loading st).

(** [setApps], [setError] and [setLoading(false)] (from [finally]). *)
Definition set_apps (l : list App) (e : option error) (st : ListState) : ListState :=
  mkListState (selectedCategory st) l false e.

(** [loadApps]: a no-op if the captured [loading] is set; otherwise reads all
    apps ("All") or the captured category, and shows them reversed (newest
    first); a failure is caught and recorded, the apps shown are kept. *)
Definition loadApps (cb : LoadCallback) (o : promise) (rq : request) (s : Store)
    (st : ListState) : Store * ListState :=
  if cb_loading cb then (s, st)
  else
    let (s1, r) :=
      if String.eqb (cb_category cb) "All" then getAllApps o rq s
      else getAppsByCategory o rq (cb_category cb) s in
    match r with
    | Ok l => (s1, set_apps (rev l) None st)
    | Err e => (s1, set_apps (apps st) (Some e) st)
    end.

(** [handleDelete]: [if (!app.id) return] (a missing id or 0), then the
    user's answer to [confirm], then [deleteApp] and a reload through the
    [loadApps] callback [handleDelete] captured.  A failed [deleteApp] is
    caught (a toast) and nothing else changes. *)
Definition handleDelete (cb : LoadCallback) (o : promise) (rqDelete rqLoad : request)
    (confirmed : bool) (app : App) (s : Store) (st : ListState) : Store * ListState :=
  match id app with
  | None => (s, st)
  | Some k =>
      if k =? 0 then (s, st)
      else if negb confirmed then (s, st)
      else
        let (s1, r) := deleteApp o rqDelete k s in
        match r with
        | Ok _ => loadApps cb o rqLoad s1 st
        | Err _ => (s1, st)
        end
  end.

(** [canPreview]: the condition [handlePreview] tests. *)
Definition canPreview (fileType : string) : bool :=
  String.eqb fileType "text/html" || String.prefix "audio/" fileType
  || String.prefix "video/" fileType.

Definition handlePreview (app : App) (previewApp : option App) : option App :=
  if canPreview (fileType app) then Some app else previewApp.

Inductive Viewer := HTMLPreview | AudioPlayer | VideoPlayer | MediaErrorMessage.

(** The preview modal: [HTMLPreview] for "text/html", otherwise
    [MediaPreview], which shows its [error] message once one is set (the
    media URL, the audio load or playback failed) and else renders the audio
    player for "audio/..." and the video element for anything else. *)
Definition viewer (app : App) (mediaError : option string) : Viewer :=
  if String.eqb (fileType app) "text/html" then HTMLPreview
  else
    match mediaError with
    | Some _ => MediaErrorMessage
    | None => if String.prefix "audio/" (fileType app) then AudioPlayer else VideoPlayer
    end.

(** ** MediaPreview (src/src/components/MediaPreview.tsx): volume controls *)

(** [sound] is the volume of the Howl behind [soundRef] ([None] when
    [soundRef.current] is null); [volume] and [isMuted] are the state. *)
Record Player := mkPlayer {
  sound : option Q;
  volume : Q;
  isMuted : bool
}.

(** A freshly created Howl plays at volume 1, the initial [volume]. *)
Definition initial_player (audio : bool) : Player :=
  mkPlayer (if audio then Some 1%Q else None) 1%Q false.

Definition toggleMute (p : Player) : Player :=
  match sound p with
  | None => p
  | Some _ =>
      if isMuted p then mkPlayer (Some (volume p)) (volume p) false
      else mkPlayer (Some 0%Q) (volume p) true
  end.

Definition handleVolumeChange (newVolume : Q) (p : Player) : Player :=
  match sound p with
  | None => p
  | Some _ => mkPlayer (Some newVolume) newVolume (Qeq_bool newVolume 0)
  end.

(** The value of the volume slider: [isMuted ? 0 : volume]. *)
Definition slider_value (p : Player) : Q := if isMuted p then 0%Q else volume p.

Inductive player_event := ToggleMute | VolumeChange (v : Q).

Definition player_step (p : Player) (ev : player_event) : Player :=
  match ev with
  | ToggleMute => toggleMute p
  | VolumeChange v => handleVolumeChange v p
  end.

(** ** AppUpload (the second component of src/src/components/AppList.tsx) *)

(** A browser [File]: its [size] is the length of its bytes. *)
Record File := mkFile {
  fname : string;
  ftype : string;
  fbytes : list Byte.byte
}.

Definition fsize (f : File) : Z := Z.of_nat (List.length (fbytes f)).

Record Form := mkForm {
  appName : string;
  fdescription : string;
  fcategory : string;
  ffile : option File;
  ficon : option File
}.

Definition resetForm : Form := mkForm "" "" (nth 0 CATEGORIES ""%string) None None.

(** [handleIconChange]: only a file whose type starts with "image/" is taken. *)
Definition handleIconChange (selected : option File) (form : Form) : Form :=
  match selected with
  | Some f =>
      if String.prefix "image/" (ftype f)
      then mkForm (appName form) (fdescription form) (fcategory form) (ffile form) (Some f)
      else form
  | None => form
  end.

(** The value [handleSubmit] passes to [addApp]; [clientDate] is the
    caller's own [new Date().toISOString()], [ownerId] is [getUserId()]. *)
Definition upload_record (form : Form) (f : File) (clientDate userId : string) : App :=
  mkApp None (appName form) (fdescription form) (fbytes f) (fname f) (ftype f)
    (fsize f) clientDate userId (fcategory form)
    (option_map fbytes (ficon form)) (option_map ftype (ficon form)).

(** [handleSubmit]: nothing without a file; the form is reset only after a
    successful [addApp]. *)
Definition handleSubmit (o : promise) (rq : request) (clientDate now userId : string)
    (form : Form) (s : Store) : Store * Form :=
  match ffile form with
  | None => (s, form)
  | Some f =>
      let (s1, r) := addApp o rq now (upload_record form f clientDate userId) s in
      match r with
      | Ok _ => (s1, resetForm)
      | Err _ => (s1, form)
      end
  end.

(** The icon held by the form is absent or an image. *)
Definition icon_ok (form : Form) : Prop :=
  match ficon form with
  | None => True
  | Some f => String.prefix "image/" (ftype f) = true
  end.

(** ** Sample inputs *)

Definition demo_file : File := mkFile "song.mp3" "audio/mpeg" [Byte.x49; Byte.x44; Byte.x33].
Definition demo_icon : File := mkFile "cover.png" "image/png" [Byte.x89; Byte.x50].
Definition demo_form : Form :=
  mkForm "Song" "a tune" "Music" (Some demo_file) (Some demo_icon).

Definition demo_audio_app : App :=
  mkApp None "Song" "a tune" [Byte.x49; Byte.x44; Byte.x33] "song.mp3" "audio/mpeg" 3
    "caller-date" "user1" "Music" None None.

(** The list as first rendered, showing category [sel]. *)
Definition list_view (sel : string) : ListState := mkListState sel [] false None.

End Ui.

(** * Generic facts: insertion sort, filters, index order *)

Module SortFacts.
Import Db.

Section InsertionSort.
Context {A : Type}.
Variable le : A -> A -> bool.
Hypothesis le_total : forall a b, le a b = false -> le b a = true.

Lemma insert_by_perm x l : Permutation (insert_by le x l) (x :: l).
Proof.
  induction l as [|y l IH]; simpl; [reflexivity|].
  destruct (le x y); [reflexivity|].
  rewrite IH. apply perm_swap.
Qed.

Lemma sort_by_perm l : Permutation (sort_by le l) l.
Proof.
  unfold sort_by; induction l as [|x l IH]; simpl; [reflexivity|].
  rewrite insert_by_perm. now apply perm_skip.
Qed.

Lemma insert_by_sorted x l :
  Sorted (fun a b => le a b = true) l ->
  Sorted (fun a b => le a b = true) (insert_by le x l).
Proof.
  induction 1 as [|y l Hs IH Hd]; simpl.
  - repeat constructor.
  - destruct (le x y) eqn:Hxy.
    + constructor; [constructor; assumption | constructor; assumption].
    + constructor; [exact IH|].
      destruct l as [|z l]; simpl.
      * constructor. now apply le_total.
      * destruct (le x z); constructor; [now apply le_total | now inversion Hd].
Qed.

Lemma sort_by_sorted l : Sorted (fun a b => le a b = true) (sort_by le l).
Proof.
  unfold sort_by; induction l as [|x l IH]; simpl;
    [constructor | now apply insert_by_sorted].
Qed.

Lemma sort_by_id l : Sorted (fun a b => le a b = true) l -> sort_by le l = l.
Proof.
  unfold sort_by; induction 1 as [|x l Hs IH Hd]; simpl; [reflexivity|].
  rewrite IH. destruct l as [|y l]; simpl; [reflexivity|].
  inversion Hd as [|? ? Hxy]; subst. now rewrite Hxy.
Qed.

End InsertionSort.

Lemma filter_perm {A} (f : A -> bool) l l' :
  Permutation l l' -> Permutation (filter f l) (filter f l').
Proof.
  induction 1 as [|x l l' _ IH|x y l|l l' l'' _ IH1 _ IH2]; simpl.
  - constructor.
  - destruct (f x); auto.
  - destruct (f x), (f y); try apply perm_swap; reflexivity.
  - etransitivity; eassumption.
Qed.

Lemma Sorted_weaken {A} (R R' : A -> A -> Prop) l :
  (forall a b, R a b -> R' a b) -> Sorted R l -> Sorted R' l.
Proof.
  intros HR; induction 1 as [|x l _ IH Hd]; constructor; [exact IH|].
  destruct Hd; constructor; auto.
Qed.

Lemma string_compare_refl (s : string) : String.compare s s = Eq.
Proof.
  pose proof (String.compare_antisym s s) as H.
  destruct (String.compare s s); simpl in H; congruence.
Qed.

Lemma index_le_total idx a b : index_le idx a b = false -> index_le idx b a = true.
Proof.
  unfold index_le, String.ltb.
  rewrite (String.compare_antisym (index_key idx b)).
  destruct (String.compare (index_key idx a) (index_key idx b)) eqn:Hc;
    simpl; intros H.
  - apply String.compare_eq_iff in Hc. rewrite Hc in *.
    rewrite String.eqb_refl in *. simpl in *.
    apply Z.leb_gt in H. apply Z.leb_le. lia.
  - discriminate.
  - reflexivity.
Qed.

Lemma index_le_key_leb idx a b :
  index_le idx a b = true ->
  String.leb (index_key idx a) (index_key idx b) = true.
Proof.
  unfold index_le, String.ltb, String.leb.
  destruct (String.compare (index_key idx a) (index_key idx b)) eqn:Hc;
    simpl; intros H; auto.
  apply andb_true_iff in H as [H _].
  apply String.eqb_eq in H. rewrite H, string_compare_refl in Hc. discriminate.
Qed.

Lemma index_le_of_leb_lt idx a b :
  String.leb (index_key idx a) (index_key idx b) = true -> key a < key b ->
  index_le idx a b = true.
Proof.
  unfold index_le, String.ltb, String.leb.
  destruct (String.compare (index_key idx a) (index_key idx b)) eqn:Hc;
    simpl; intros H Hk; auto; try discriminate.
  apply String.compare_eq_iff in Hc. rewrite Hc, String.eqb_refl. simpl.
  apply Z.leb_le. lia.
Qed.

End SortFacts.

(** * The object store invariant holds in every reachable state *)

Module StoreFacts.
Import Db SortFacts.

Lemma store_insert_perm r l : Permutation (store_insert r l) (r :: l).
Proof.
  induction l as [|y l IH]; simpl; [reflexivity|].
  destruct (key r <? key y); [reflexivity|].
  rewrite IH. apply perm_swap.
Qed.

Lemma Forall_store_insert (P : App -> Prop) r l :
  P r -> Forall P l -> Forall P (store_insert r l).
Proof.
  intros Hr Hl. apply Forall_forall. intros z Hz.
  apply (Permutation_in _ (store_insert_perm r l)) in Hz.
  destruct Hz as [<-|Hz]; [exact Hr|].
  exact (proj1 (Forall_forall _ _) Hl z Hz).
Qed.

Lemma store_insert_sorted r l :
  StronglySorted (fun a b => key a < key b) l ->
  Forall (fun y => key y <> key r) l ->
  StronglySorted (fun a b => key a < key b) (store_insert r l).
Proof.
  induction l as [|y l IH]; simpl; intros Hs Hne.
  - repeat constructor.
  - apply StronglySorted_inv in Hs as [Hs Hy].
    inversion Hne as [|? ? Hyr Hne']; subst.
    destruct (key r <? key y) eqn:Hlt.
    + apply Z.ltb_lt in Hlt.
      constructor; [constructor; assumption|].
      constructor; [exact Hlt|].
      eapply Forall_impl; [|exact Hy]. intros z Hz; simpl in Hz; lia.
    + apply Z.ltb_ge in Hlt.
      constructor; [now apply IH|].
      apply Forall_store_insert; [lia|exact Hy].
Qed.

Lemma has_key_false k l :
  has_key k l = false -> Forall (fun y => key y <> k) l.
Proof.
  unfold has_key; intros H. apply Forall_forall. intros y Hy Heq.
  assert (existsb (fun r => key r =? k) l = true) as Ht.
  { apply existsb_exists. exists y. split; [exact Hy|]. now apply Z.eqb_eq. }
  congruence.
Qed.

Lemma StronglySorted_filter {A} (R : A -> A -> Prop) (f : A -> bool) l :
  StronglySorted R l -> StronglySorted R (filter f l).
Proof.
  induction 1 as [|x l _ IH Hx]; simpl; [constructor|].
  destruct (f x); [|exact IH].
  constructor; [exact IH|].
  apply Forall_forall. intros z Hz. apply filter_In in Hz as [Hz _].
  exact (proj1 (Forall_forall _ _) Hx z Hz).
Qed.

Lemma Forall_filter {A} (P : A -> Prop) (f : A -> bool) l :
  Forall P l -> Forall P (filter f l).
Proof.
  intros H. apply Forall_forall. intros z Hz. apply filter_In in Hz as [Hz _].
  exact (proj1 (Forall_forall _ _) H z Hz).
Qed.

Lemma os_add_wf os v os' k :
  wf os -> os_add os v = Ok (os', k) -> wf os'.
Proof.
  unfold os_add; intros (Hs & Hid & Hcn) Hadd.
  destruct (id v) as [k0|] eqn:Hv.
  - destruct (has_key k0 (records os)) eqn:Hk; [discriminate|].
    injection Hadd as <- <-. apply has_key_false in Hk.
    assert (key v = k0) as Hkey by (unfold key; now rewrite Hv).
    repeat split; simpl.
    + apply store_insert_sorted; [exact Hs|]. now rewrite Hkey.
    + apply Forall_store_insert; [congruence|exact Hid].
    + unfold MAX_KEY in *.
      destruct (current_number os <=? Z.min k0 (2 ^ 53)) eqn:Hle;
        [apply Z.leb_le in Hle | apply Z.leb_gt in Hle].
      * destruct (Z.le_gt_cases k0 (2 ^ 53)).
        -- left. apply Forall_store_insert; [lia|].
           destruct Hcn as [Hcn|Hcn]; [|lia].
           eapply Forall_impl; [|exact Hcn]. simpl; intros; lia.
        -- right. lia.
      * destruct Hcn as [Hcn|Hcn]; [|right; exact Hcn].
        destruct (Z.le_gt_cases k0 (2 ^ 53)); [left|right; lia].
        apply Forall_store_insert; [lia|exact Hcn].
  - destruct (MAX_KEY <? current_number os) eqn:Hm; [discriminate|].
    apply Z.ltb_ge in Hm. injection Hadd as <- <-.
    destruct Hcn as [Hcn|Hcn]; [|lia].
    assert (key (with_id (current_number os) v) = current_number os) as Hkey
      by reflexivity.
    repeat split; simpl.
    + apply store_insert_sorted; [exact Hs|]. rewrite Hkey.
      eapply Forall_impl; [|exact Hcn]. simpl; intros; lia.
    + apply Forall_store_insert; [simpl; discriminate|exact Hid].
    + left. apply Forall_store_insert; [simpl; lia|].
      eapply Forall_impl; [|exact Hcn]. simpl; intros; lia.
Qed.

Lemma os_delete_wf os k : wf os -> wf (os_delete os k).
Proof.
  intros (Hs & Hid & Hcn). repeat split; simpl.
  - now apply StronglySorted_filter.
  - now apply Forall_filter.
  - destruct Hcn as [Hcn|Hcn]; [left; now apply Forall_filter | now right].
Qed.

Lemma getDB_db o s : db (fst (getDB o s)) = db s.
Proof.
  unfold getDB, initDB.
  destruct (dbPromise s) as [[|e]|]; [reflexivity|reflexivity|].
  destruct o; reflexivity.
Qed.

Lemma getDB_db' o s s1 r : getDB o s = (s1, r) -> db s1 = db s.
Proof. intros H. rewrite <- (getDB_db o s), H. reflexivity. Qed.

Lemma step_wf x s : wf (db s) -> wf (db (fst (step x s))).
Proof.
  intros Hwf. destruct x as [o rq now a|o rq|o rq c|o rq k| |]; simpl.
  - unfold addApp. destruct (getDB o s) as [s1 [u|e]] eqn:Hg;
      apply getDB_db' in Hg; simpl; [|congruence].
    destruct rq as [|e]; simpl; [|congruence].
    destruct (os_add (db s1) (with_uploadDate now a)) as [[os' k]|e] eqn:Ha;
      simpl; [|congruence].
    eapply os_add_wf; [|exact Ha]. congruence.
  - unfold getAllApps. destruct (getDB o s) as [s1 [u|e]] eqn:Hg;
      apply getDB_db' in Hg; destruct rq; simpl; congruence.
  - unfold getAppsByCategory. destruct (getDB o s) as [s1 [u|e]] eqn:Hg;
      apply getDB_db' in Hg; destruct rq; simpl; congruence.
  - unfold deleteApp. destruct (getDB o s) as [s1 [u|e]] eqn:Hg;
      apply getDB_db' in Hg; simpl; [|congruence].
    destruct rq; simpl; [|congruence].
    apply os_delete_wf. congruence.
  - exact Hwf.
  - exact Hwf.
Qed.

Lemma reachable_wf acc s : reachable acc s -> wf (db s).
Proof.
  induction 1 as [|x s _ IH _].
  - split; [constructor|split; [constructor|left; constructor]].
  - now apply step_wf.
Qed.

End StoreFacts.

(** * Per-operation specifications *)

Module OpFacts.
Import Db SortFacts StoreFacts.

Lemma with_id_self k a : id a = Some k -> with_id k a = a.
Proof. destruct a; simpl; intros ->; reflexivity. Qed.

Lemma os_add_spec os v os' k :
  os_add os v = Ok (os', k) ->
  records os' = store_insert (with_id k v) (records os) /\
  (id v = None -> k = current_number os /\ current_number os <= MAX_KEY /\
                  current_number os' = k + 1) /\
  (forall k0, id v = Some k0 -> k = k0 /\ has_key k0 (records os) = false /\
                  current_number os <= current_number os').
Proof.
  unfold os_add. destruct (id v) as [k0|] eqn:Hv.
  - destruct (has_key k0 (records os)) eqn:Hk; [discriminate|].
    intros H; injection H as <- <-; simpl.
    rewrite (with_id_self k0 v Hv).
    split; [reflexivity|]. split; [discriminate|].
    intros k1 Hk1; injection Hk1 as <-. repeat split; [exact Hk|].
    destruct (current_number os <=? Z.min k0 MAX_KEY) eqn:Hle;
      [apply Z.leb_le in Hle; lia | lia].
  - destruct (MAX_KEY <? current_number os) eqn:Hm; [discriminate|].
    apply Z.ltb_ge in Hm. intros H; injection H as <- <-; simpl.
    split; [reflexivity|]. split; [tauto|]. discriminate.
Qed.

Lemma addApp_spec o rq now app s s1 k :
  addApp o rq now app s = (s1, Ok k) ->
  snd (getDB o s) = Ok tt /\
  dbPromise s1 = dbPromise (fst (getDB o s)) /\
  os_add (db s) (with_uploadDate now app) = Ok (db s1, k).
Proof.
  unfold addApp. destruct (getDB o s) as [s' [u|e]] eqn:Hg; [|discriminate].
  pose proof (getDB_db' _ _ _ _ Hg) as Hdb. rewrite <- Hdb.
  destruct rq as [|e]; [|discriminate].
  destruct (os_add (db s') (with_uploadDate now app)) as [[os' k']|e] eqn:Ha;
    [|discriminate].
  intros H; injection H as <- <-. destruct u. repeat split; reflexivity.
Qed.

(** The key [k] assigned by a successful [addApp] on a reachable state is
    fresh, and the record stored under it is the stamped value. *)
Lemma addApp_inserts acc o rq now app s s1 k :
  reachable acc s -> addApp o rq now app s = (s1, Ok k) ->
  records (db s1) = store_insert (with_id k (with_uploadDate now app)) (records (db s)) /\
  Forall (fun r => key r <> k) (records (db s)) /\
  (id app = None -> k = current_number (db s)) /\
  (forall k0, id app = Some k0 -> k = k0).
Proof.
  intros Hr Hadd. destruct (reachable_wf _ _ Hr) as (_ & _ & Hcn).
  apply addApp_spec in Hadd as (_ & _ & Ha).
  apply os_add_spec in Ha as (Hrec & Hnone & Hsome).
  simpl in Hnone, Hsome.
  split; [exact Hrec|].
  destruct (id app) as [k0|] eqn:Hv.
  - destruct (Hsome k0 eq_refl) as (-> & Hk & _).
    split; [now apply has_key_false|]. split; [discriminate|].
    intros k1 H; injection H as <-; reflexivity.
  - destruct (Hnone eq_refl) as (-> & Hle & _).
    split; [|split; [reflexivity|discriminate]].
    destruct Hcn as [Hcn|Hcn]; [|unfold MAX_KEY in *; lia].
    eapply Forall_impl; [|exact Hcn]. simpl; intros; lia.
Qed.

Lemma filter_key_absent k l :
  Forall (fun r => key r <> k) l -> filter (fun r => key r =? k) l = [].
Proof.
  induction 1 as [|x l Hx _ IH]; simpl; [reflexivity|].
  destruct (key x =? k) eqn:E; [apply Z.eqb_eq in E; contradiction|exact IH].
Qed.

Lemma filter_has_id_key k l :
  Forall (fun r => id r <> None) l ->
  filter (has_id k) l = filter (fun r => key r =? k) l.
Proof.
  intros H. apply filter_ext_in. intros r Hr.
  pose proof (proj1 (Forall_forall _ _) H r Hr) as Hid.
  unfold has_id, key. destruct (id r) eqn:E; [reflexivity|contradiction].
Qed.

Lemma getAllApps_spec o rq s s1 l :
  getAllApps o rq s = (s1, Ok l) ->
  db s1 = db s /\ l = sort_by (index_le IUploadDate) (records (db s)).
Proof.
  unfold getAllApps. destruct (getDB o s) as [s' [u|e]] eqn:Hg; [|discriminate].
  destruct rq as [|e]; [|discriminate].
  apply getDB_db' in Hg. intros H; injection H as <- <-.
  split; [exact Hg|]. unfold os_getAllFromIndex. rewrite Hg. apply filter_true.
Qed.

Lemma getAppsByCategory_spec o rq c s s1 l :
  getAppsByCategory o rq c s = (s1, Ok l) ->
  db s1 = db s /\
  l = filter (fun r => String.eqb (category r) c)
        (sort_by (index_le ICategory) (records (db s))).
Proof.
  unfold getAppsByCategory.
  destruct (getDB o s) as [s' [u|e]] eqn:Hg; [|discriminate].
  destruct rq as [|e]; [|discriminate].
  apply getDB_db' in Hg. intros H; injection H as <- <-.
  split; [exact Hg|]. unfold os_getAllFromIndex. now rewrite Hg.
Qed.

Lemma run_reachable acc s ops :
  reachable acc s -> forallb (op_accepted acc) ops = true ->
  reachable acc (fst (run s ops)).
Proof.
  revert s; induction ops as [|x ops IH]; simpl; intros s Hs Hops; [exact Hs|].
  apply andb_true_iff in Hops as [Hx Hops].
  destruct (step x s) as [s1 r] eqn:Hst.
  destruct (run s1 ops) as [s2 ks] eqn:Hrun; simpl.
  change s2 with (fst (s2, ks)). rewrite <- Hrun. apply IH; [|exact Hops].
  change s1 with (fst (s1, r)). rewrite <- Hst. now constructor.
Qed.

Lemma deleteApp_spec o rq k s s1 :
  deleteApp o rq k s = (s1, Ok tt) ->
  snd (getDB o s) = Ok tt /\ db s1 = os_delete (db s) k.
Proof.
  unfold deleteApp. destruct (getDB o s) as [s' [u|e]] eqn:Hg; [|discriminate].
  destruct rq as [|e]; [|discriminate].
  pose proof (getDB_db' _ _ _ _ Hg) as Hdb.
  intros H; injection H as <-. destruct u. simpl. now rewrite Hdb.
Qed.

Lemma existsb_false_forallb {A} (f : A -> bool) l :
  existsb f l = false -> forallb (fun x => negb (f x)) l = true.
Proof.
  induction l as [|x l IH]; simpl; [reflexivity|].
  intros H. apply orb_false_iff in H as [-> H]. simpl. now apply IH.
Qed.

Lemma filter_comm {A} (f g : A -> bool) l :
  filter f (filter g l) = filter g (filter f l).
Proof.
  induction l as [|x l IH]; simpl; [reflexivity|].
  destruct (g x) eqn:Hg, (f x) eqn:Hf; simpl; rewrite ?Hg, ?Hf, IH; reflexivity.
Qed.

Lemma sorted_index_of_dates l :
  Sorted (fun a b => String.leb (uploadDate a) (uploadDate b) = true) l ->
  StronglySorted (fun a b => key a < key b) l ->
  Sorted (fun a b => index_le IUploadDate a b = true) l.
Proof.
  induction 1 as [|x l _ IH Hd]; intros Hss; constructor;
    apply StronglySorted_inv in Hss as [Hss Hx].
  - now apply IH.
  - destruct Hd as [|y l' Hxy]; constructor.
    inversion Hx; subst. now apply index_le_of_leb_lt.
Qed.

(** What one step does to the object store. *)
Lemma step_db x s :
  match x with
  | OpAdd _ _ now a =>
      match snd (step x s) with
      | Some k => os_add (db s) (with_uploadDate now a) = Ok (db (fst (step x s)), k)
      | None => db (fst (step x s)) = db s
      end
  | OpDelete _ _ k =>
      db (fst (step x s)) = db s \/ db (fst (step x s)) = os_delete (db s) k
  | _ => db (fst (step x s)) = db s
  end.
Proof.
  destruct x as [o rq now a|o rq|o rq c|o rq k| |]; simpl; try reflexivity.
  - unfold addApp. destruct (getDB o s) as [s1 [u|e]] eqn:Hg;
      apply getDB_db' in Hg; simpl; [|exact Hg].
    destruct rq as [|e]; simpl; [|exact Hg].
    rewrite Hg.
    destruct (os_add (db s) (with_uploadDate now a)) as [[os' k]|e] eqn:Ha;
      simpl; [reflexivity|exact Hg].
  - unfold getAllApps. destruct (getDB o s) as [s1 [u|e]] eqn:Hg;
      apply getDB_db' in Hg; destruct rq; exact Hg.
  - unfold getAppsByCategory. destruct (getDB o s) as [s1 [u|e]] eqn:Hg;
      apply getDB_db' in Hg; destruct rq; exact Hg.
  - unfold deleteApp. destruct (getDB o s) as [s1 [u|e]] eqn:Hg;
      apply getDB_db' in Hg; simpl; [|left; exact Hg].
    destruct rq; simpl; [right; now rewrite Hg|left; exact Hg].
Qed.

Lemma step_records (P : App -> Prop) x s :
  Forall P (records (db s)) ->
  (forall o rq now a k, x = OpAdd o rq now a -> P (with_id k (with_uploadDate now a))) ->
  Forall P (records (db (fst (step x s)))).
Proof.
  intros HP Hnew. pose proof (step_db x s) as Hs.
  destruct x as [o rq now a|o rq|o rq c|o rq k| |]; try (rewrite Hs; exact HP).
  - destruct (snd (step (OpAdd o rq now a) s)) as [k|].
    + apply os_add_spec in Hs as (-> & _ & _).
      apply Forall_store_insert; [exact (Hnew o rq now a k eq_refl)|exact HP].
    + rewrite Hs. exact HP.
  - destruct Hs as [-> | ->]; [exact HP|]. now apply Forall_filter.
Qed.

Lemma reachable_records acc (P : App -> Prop) s :
  (forall a now k, acc a = true -> P (with_id k (with_uploadDate now a))) ->
  reachable acc s -> Forall P (records (db s)).
Proof.
  intros Hacc. induction 1 as [|x s _ IH Hx]; [constructor|].
  apply step_records; [exact IH|].
  intros o rq now a k ->. apply Hacc. exact Hx.
Qed.

(** A step that does not add a record with a caller-chosen key moves the key
    generator only when it adds a record, and then by one. *)
Lemma step_current_number x s s1 r :
  add_without_id x = true -> step x s = (s1, r) ->
  (r = None -> current_number (db s1) = current_number (db s)) /\
  (forall k, r = Some k ->
     k = current_number (db s) /\ current_number (db s1) = k + 1).
Proof.
  intros Hx Hst. pose proof (step_db x s) as Hs. rewrite Hst in Hs. simpl in Hs.
  destruct x as [o rq now a|o rq|o rq c|o rq k'| |]; simpl in Hx;
    try (assert (r = None) as -> by (simpl in Hst; now injection Hst as _ <-)).
  - destruct r as [k|].
    + apply os_add_spec in Hs as (_ & Hnone & _). simpl in Hnone.
      destruct (id a); [discriminate|].
      destruct (Hnone eq_refl) as (-> & _ & ->).
      split; [discriminate|]. intros k' H; injection H as <-. split; reflexivity.
    + rewrite Hs. split; [reflexivity|discriminate].
  - rewrite Hs. split; [reflexivity|discriminate].
  - rewrite Hs. split; [reflexivity|discriminate].
  - destruct Hs as [-> | ->]; split; (reflexivity || discriminate).
  - rewrite Hs. split; [reflexivity|discriminate].
  - rewrite Hs. split; [reflexivity|discriminate].
Qed.

(** Along a run whose additions carry no identifier, the returned keys are
    the generator's successive values. *)
Lemma run_ids_consecutive s ops :
  forallb add_without_id ops = true ->
  snd (run s ops) =
    map (fun i => current_number (db s) + Z.of_nat i)
      (seq 0 (List.length (snd (run s ops)))).
Proof.
  revert s; induction ops as [|x ops IH]; intros s Hops; simpl; [reflexivity|].
  simpl in Hops. apply andb_true_iff in Hops as [Hx Hops].
  destruct (step x s) as [s1 r] eqn:Hst.
  pose proof (IH s1 Hops) as Hks.
  destruct (run s1 ops) as [s2 ks] eqn:Hrun. simpl in Hks |- *.
  destruct (step_current_number x s s1 r Hx Hst) as [Hnone Hsome].
  destruct r as [k|].
  - destruct (Hsome k eq_refl) as [Hk Hk1]. simpl. f_equal; [lia|].
    transitivity (map (fun i => current_number (db s1) + Z.of_nat i)
                    (seq 0 (List.length ks))); [exact Hks|].
    rewrite <- seq_shift, map_map. apply map_ext. intros i. lia.
  - rewrite (Hnone eq_refl) in Hks. exact Hks.
Qed.

Lemma consecutive_sorted (c : Z) a n :
  StronglySorted Z.lt (map (fun i => c + Z.of_nat i) (seq a n)).
Proof.
  revert a; induction n as [|n IH]; intros a; simpl; [constructor|].
  constructor; [apply IH|].
  apply Forall_forall. intros y Hy. apply in_map_iff in Hy as [j [<- Hj]].
  apply in_seq in Hj. lia.
Qed.

Lemma getDB_err o s s1 e : getDB o s = (s1, Err e) -> dbPromise s1 = None.
Proof.
  unfold getDB, initDB. destruct (dbPromise s) as [[|e']|].
  - discriminate.
  - intros H; injection H as <- _. reflexivity.
  - destruct o as [|e']; [discriminate|]. intros H; injection H as <- _.
    reflexivity.
Qed.

Lemma getDB_no_rejection o s :
  (forall e, dbPromise s <> Some (Rejected e)) ->
  forall e, dbPromise (fst (getDB o s)) <> Some (Rejected e).
Proof.
  intros H e. unfold getDB, initDB.
  destruct (dbPromise s) as [[|e']|] eqn:E; simpl.
  - rewrite E. discriminate.
  - exfalso. exact (H e' eq_refl).
  - destruct o; simpl; discriminate.
Qed.

Lemma step_promise x s :
  match x with
  | OpAdd o _ _ _ | OpGetAll o _ | OpGetByCategory o _ _ | OpDelete o _ _ =>
      dbPromise (fst (step x s)) = dbPromise (fst (getDB o s))
  | _ => dbPromise (fst (step x s)) = None
  end.
Proof.
  destruct x as [o rq now a|o rq|o rq c|o rq k| |]; simpl; try reflexivity.
  - unfold addApp. destruct (getDB o s) as [s1 [u|e]]; simpl; [|reflexivity].
    destruct rq; [|reflexivity].
    destruct (os_add (db s1) (with_uploadDate now a)) as [[os' k]|e]; reflexivity.
  - unfold getAllApps. destruct (getDB o s) as [s1 [u|e]]; destruct rq; reflexivity.
  - unfold getAppsByCategory. destruct (getDB o s) as [s1 [u|e]]; destruct rq; reflexivity.
  - unfold deleteApp. destruct (getDB o s) as [s1 [u|e]]; destruct rq; reflexivity.
Qed.

Lemma reachable_no_rejection acc s :
  reachable acc s -> forall e, dbPromise s <> Some (Rejected e).
Proof.
  induction 1 as [|x s _ IH _]; [discriminate|].
  pose proof (step_promise x s) as Hp.
  destruct x; try (rewrite Hp; now apply getDB_no_rejection); rewrite Hp; discriminate.
Qed.

End OpFacts.

(** * The claims *)

Module Claims.
Import Db SortFacts StoreFacts OpFacts.

(** C1: for every category [c] and every store state, [getAppsByCategory c]
    returns the records of [getAllApps] whose category equals [c], as the
    same multiset (the two reads list them in different index orders). *)
Theorem getAppsByCategory_is_filter_of_getAllApps o rq1 rq2 s c s1 l1 s2 l2 :
  getAllApps o rq1 s = (s1, Ok l1) ->
  getAppsByCategory o rq2 c s = (s2, Ok l2) ->
  Permutation l2 (filter (fun r => String.eqb (category r) c) l1).
Proof.
  intros H1 H2.
  apply getAllApps_spec in H1 as [_ ->].
  apply getAppsByCategory_spec in H2 as [_ ->].
  transitivity (filter (fun r => String.eqb (category r) c) (records (db s))).
  - apply filter_perm, sort_by_perm.
  - symmetry. apply filter_perm, sort_by_perm.
Qed.

Lemma getAppsByCategory_is_filter_of_getAllApps_witness :
  getAllApps Fulfilled Completes demo_store =
    (fst (getAllApps Fulfilled Completes demo_store),
     Ok (os_getAllFromIndex (db demo_store) IUploadDate None)) /\
  getAppsByCategory Fulfilled Completes "Games" demo_store =
    (fst (getAppsByCategory Fulfilled Completes "Games" demo_store),
     Ok (os_getAllFromIndex (db demo_store) ICategory (Some "Games"%string))) /\
  Permutation (os_getAllFromIndex (db demo_store) ICategory (Some "Games"%string))
    (filter (fun r => String.eqb (category r) "Games")
       (os_getAllFromIndex (db demo_store) IUploadDate None)).
Proof.
  split; [reflexivity|split; [reflexivity|]].
  apply (getAppsByCategory_is_filter_of_getAllApps Fulfilled Completes Completes
           demo_store "Games"
           (fst (getAllApps Fulfilled Completes demo_store)) _
           (fst (getAppsByCategory Fulfilled Completes "Games" demo_store)) _);
    reflexivity.
Defined.

(** C2: whatever [uploadDate] the caller passes, the record [addApp]
    inserts carries the time stamp taken at the call ([now]) and otherwise
    the caller's fields, and [addApp] returns the identifier under which it
    was inserted: a key not used before, the generator's current number
    when the record carries no [id]. *)
Theorem addApp_stamps_uploadDate_and_returns_key acc o rq now app s s1 k :
  reachable acc s ->
  addApp o rq now app s = (s1, Ok k) ->
  (exists r, In r (records (db s1)) /\ id r = Some k /\
             uploadDate r = now /\ same_content r app) /\
  Forall (fun r => key r <> k) (records (db s)) /\
  (id app = None -> k = current_number (db s)).
Proof.
  intros Hr Hadd.
  destruct (addApp_inserts _ _ _ _ _ _ _ _ Hr Hadd) as (Hrec & Hfresh & Hnone & _).
  split; [|split; [exact Hfresh|exact Hnone]].
  exists (with_id k (with_uploadDate now app)).
  split; [|repeat split].
  rewrite Hrec. apply (Permutation_in _ (Permutation_sym (store_insert_perm _ _))).
  now left.
Qed.

Lemma addApp_stamps_uploadDate_and_returns_key_witness :
  reachable any_app init_store /\
  addApp Fulfilled Completes "2026-01-01T10:00:00.000Z" (sample "Tools") init_store =
    (fst (addApp Fulfilled Completes "2026-01-01T10:00:00.000Z" (sample "Tools")
            init_store), Ok 1) /\
  ((exists r, In r (records (db (fst (addApp Fulfilled Completes
                                         "2026-01-01T10:00:00.000Z"
                                         (sample "Tools") init_store)))) /\
     id r = Some 1 /\ uploadDate r = "2026-01-01T10:00:00.000Z"%string /\
     same_content r (sample "Tools")) /\
   Forall (fun r => key r <> 1) (records (db init_store)) /\
   (id (sample "Tools") = None -> 1 = current_number (db init_store))).
Proof.
  split; [constructor|split; [reflexivity|]].
  apply (addApp_stamps_uploadDate_and_returns_key any_app Fulfilled Completes
           "2026-01-01T10:00:00.000Z" (sample "Tools") init_store); [constructor|].
  reflexivity.
Defined.

(** C3: after a successful [deleteApp k], [getAllApps] lists no record with
    identifier [k].  Whether [deleteApp k] succeeds does not depend on [k]
    being stored: it succeeds exactly when the database opens and the
    engine completes the request, and fails only with the error of one of
    those two; on an identifier that is not stored it leaves the object
    store (records and key generator) unchanged. *)
Theorem deleteApp_removes_key_and_tolerates_absent o rq k s :
  (forall s1 o' rq' s2 l, deleteApp o rq k s = (s1, Ok tt) ->
     getAllApps o' rq' s1 = (s2, Ok l) -> Forall (fun r => has_id k r = false) l) /\
  (snd (deleteApp o rq k s) = Ok tt <-> snd (getDB o s) = Ok tt /\ rq = Completes) /\
  (forall e, snd (deleteApp o rq k s) = Err e <->
     snd (getDB o s) = Err e \/ (snd (getDB o s) = Ok tt /\ rq = Fails e)) /\
  (has_key k (records (db s)) = false -> db (fst (deleteApp o rq k s)) = db s).
Proof.
  split; [|split; [|split]].
  - intros s1 o' rq' s2 l Hd Hg.
    apply deleteApp_spec in Hd as [_ Hdb].
    apply getAllApps_spec in Hg as [_ ->]. rewrite Hdb.
    apply Forall_forall. intros r Hr.
    apply (Permutation_in _ (sort_by_perm _ _)) in Hr. simpl in Hr.
    apply filter_In in Hr as [_ Hr].
    unfold has_id. unfold key in Hr. destruct (id r); [|reflexivity].
    now apply negb_true_iff in Hr.
  - unfold deleteApp. destruct (getDB o s) as [s' [[]|e']]; destruct rq as [|e];
      simpl; split; intros H; try discriminate; try (destruct H; discriminate);
      try (split; reflexivity); reflexivity.
  - intros e0. unfold deleteApp.
    destruct (getDB o s) as [s' [[]|e']]; destruct rq as [|e]; simpl;
      split; intros H.
    + discriminate.
    + destruct H as [H|[_ H]]; discriminate.
    + right. injection H as ->. split; reflexivity.
    + destruct H as [H|[_ H]]; [discriminate|]. injection H as ->. reflexivity.
    + left. exact H.
    + destruct H as [H|[H _]]; [exact H|discriminate].
    + left. exact H.
    + destruct H as [H|[H _]]; [exact H|discriminate].
  - intros Hk. unfold deleteApp.
    destruct (getDB o s) as [s' [u|e']] eqn:Hg'; [|exact (getDB_db' _ _ _ _ Hg')].
    destruct rq as [|e]; [|exact (getDB_db' _ _ _ _ Hg')].
    simpl. unfold os_delete.
    rewrite (getDB_db' _ _ _ _ Hg').
    rewrite forallb_filter_id; [destruct (db s); reflexivity|].
    exact (existsb_false_forallb _ _ Hk).
Qed.

Lemma deleteApp_removes_key_and_tolerates_absent_witness :
  has_key 7 (records (db demo_store)) = false /\
  db (fst (deleteApp Fulfilled Completes 7 demo_store)) = db demo_store /\
  snd (deleteApp Fulfilled Completes 7 demo_store) = Ok tt.
Proof.
  assert (Hk : has_key 7 (records (db demo_store)) = false) by reflexivity.
  split; [exact Hk|]. split.
  - exact (proj2 (proj2 (proj2 (deleteApp_removes_key_and_tolerates_absent
                                  Fulfilled Completes 7 demo_store))) Hk).
  - apply (proj2 (proj1 (proj2 (deleteApp_removes_key_and_tolerates_absent
                                  Fulfilled Completes 7 demo_store)))).
    split; reflexivity.
Defined.

(** C6: [getAllApps] returns every stored record, ordered by [uploadDate]
    ascending; when the stamps are non-decreasing in identifier order (as
    when they are taken from a clock that does not go back), the order is
    the identifier order, i.e. the order of insertion. *)
Theorem getAllApps_ordered_by_uploadDate acc o rq s s1 l :
  reachable acc s ->
  getAllApps o rq s = (s1, Ok l) ->
  Permutation l (records (db s)) /\
  Sorted (fun a b => String.leb (uploadDate a) (uploadDate b) = true) l /\
  (Sorted (fun a b => String.leb (uploadDate a) (uploadDate b) = true)
     (records (db s)) -> l = records (db s)).
Proof.
  intros Hr Hg. apply getAllApps_spec in Hg as [_ ->].
  split; [apply sort_by_perm|split].
  - eapply Sorted_weaken;
      [|exact (sort_by_sorted (index_le IUploadDate) (index_le_total IUploadDate) _)].
    intros a b H. exact (index_le_key_leb IUploadDate a b H).
  - intros Hd. apply sort_by_id.
    destruct (reachable_wf _ _ Hr) as (Hs & _).
    now apply sorted_index_of_dates.
Qed.

Lemma getAllApps_ordered_by_uploadDate_witness :
  reachable any_app demo_store /\
  getAllApps Fulfilled Completes demo_store =
    (fst (getAllApps Fulfilled Completes demo_store),
     Ok (os_getAllFromIndex (db demo_store) IUploadDate None)) /\
  (Permutation (os_getAllFromIndex (db demo_store) IUploadDate None)
     (records (db demo_store)) /\
   Sorted (fun a b => String.leb (uploadDate a) (uploadDate b) = true)
     (os_getAllFromIndex (db demo_store) IUploadDate None) /\
   (Sorted (fun a b => String.leb (uploadDate a) (uploadDate b) = true)
      (records (db demo_store)) ->
    os_getAllFromIndex (db demo_store) IUploadDate None = records (db demo_store))).
Proof.
  assert (reachable any_app demo_store) as Hr
    by (apply run_reachable; [constructor|reflexivity]).
  split; [exact Hr|split; [reflexivity|]].
  apply (getAllApps_ordered_by_uploadDate any_app Fulfilled Completes demo_store
           (fst (getAllApps Fulfilled Completes demo_store))); [exact Hr|reflexivity].
Defined.

(** C7: after a successful [addApp] of [app] under identifier [k], both
    [getAllApps] and [getAppsByCategory (category app)] list exactly one
    record with identifier [k]; it carries the stamp [now] and equals [app]
    in every other field but [id] (same file bytes, fileType, fileSize). *)
Theorem addApp_round_trip acc o rq now app s s1 k :
  reachable acc s ->
  addApp o rq now app s = (s1, Ok k) ->
  (forall o' rq' s2 l, getAllApps o' rq' s1 = (s2, Ok l) ->
     exists r, filter (has_id k) l = [r] /\ uploadDate r = now /\ same_content r app) /\
  (forall o' rq' s2 l, getAppsByCategory o' rq' (category app) s1 = (s2, Ok l) ->
     exists r, filter (has_id k) l = [r] /\ uploadDate r = now /\ same_content r app).
Proof.
  intros Hr Hadd.
  destruct (reachable_wf _ _ Hr) as (_ & Hids & _).
  destruct (addApp_inserts _ _ _ _ _ _ _ _ Hr Hadd) as (Hrec & Hfresh & _ & _).
  set (v := with_id k (with_uploadDate now app)) in *.
  assert (Forall (fun r => id r <> None) (records (db s1))) as Hids1
    by (rewrite Hrec; apply Forall_store_insert; [discriminate|exact Hids]).
  assert (forall L, Permutation L (records (db s1)) -> filter (has_id k) L = [v])
    as Hone.
  { intros L HL. apply Permutation_length_1_inv. symmetry.
    transitivity (filter (has_id k) (records (db s1))); [now apply filter_perm|].
    rewrite filter_has_id_key by exact Hids1. rewrite Hrec.
    transitivity (filter (fun r => key r =? k) (v :: records (db s)));
      [apply filter_perm, store_insert_perm|].
    simpl. rewrite Z.eqb_refl, filter_key_absent by exact Hfresh. reflexivity. }
  assert (uploadDate v = now /\ same_content v app) as Hv by (repeat split).
  split.
  - intros o' rq' s2 l Hg. apply getAllApps_spec in Hg as [_ ->].
    exists v. split; [apply Hone, sort_by_perm|exact Hv].
  - intros o' rq' s2 l Hg. apply getAppsByCategory_spec in Hg as [_ ->].
    exists v. split; [|exact Hv].
    rewrite filter_comm, Hone by apply sort_by_perm.
    simpl. now rewrite String.eqb_refl.
Qed.

Lemma addApp_round_trip_witness :
  reachable any_app demo_store /\
  addApp Fulfilled Completes "2026-01-02T08:00:00.000Z" (sample "Music") demo_store =
    (fst (addApp Fulfilled Completes "2026-01-02T08:00:00.000Z" (sample "Music")
            demo_store), Ok 4) /\
  ((forall o' rq' s2 l,
      getAllApps o' rq' (fst (addApp Fulfilled Completes "2026-01-02T08:00:00.000Z"
                                (sample "Music") demo_store)) = (s2, Ok l) ->
      exists r, filter (has_id 4) l = [r] /\
        uploadDate r = "2026-01-02T08:00:00.000Z"%string /\
        same_content r (sample "Music")) /\
   (forall o' rq' s2 l,
      getAppsByCategory o' rq' (category (sample "Music"))
        (fst (addApp Fulfilled Completes "2026-01-02T08:00:00.000Z"
                (sample "Music") demo_store)) = (s2, Ok l) ->
      exists r, filter (has_id 4) l = [r] /\
        uploadDate r = "2026-01-02T08:00:00.000Z"%string /\
        same_content r (sample "Music"))).
Proof.
  assert (reachable any_app demo_store) as Hr
    by (apply run_reachable; [constructor|reflexivity]).
  split; [exact Hr|split; [reflexivity|]].
  apply (addApp_round_trip any_app Fulfilled Completes "2026-01-02T08:00:00.000Z"
           (sample "Music") demo_store); [exact Hr|reflexivity].
Defined.

(** C4 (counterexample): the argument "All" is not a member of the
    enumeration, yet [getAppsByCategory] does not fail on it: it returns an
    empty sequence. *)
Lemma getAppsByCategory_accepts_unknown_category :
  is_category "All" = false /\
  getAppsByCategory Fulfilled Completes "All" demo_store =
    (fst (getDB Fulfilled demo_store), Ok []).
Proof. split; reflexivity. Qed.

(** C4 (amended): [getAppsByCategory] does not check its argument at run
    time: whether it fails does not depend on the argument, as it fails only
    when opening the database or the engine's read fails; otherwise it
    returns the stored records whose category equals the argument, so an
    argument outside the enumeration yields an empty sequence when only
    values of the declared type were added. *)
Theorem getAppsByCategory_does_not_validate o rq c s :
  (forall c' e, snd (getAppsByCategory o rq c s) = Err e <->
                snd (getAppsByCategory o rq c' s) = Err e) /\
  (forall s1 e, getAppsByCategory o rq c s = (s1, Err e) ->
     snd (getDB o s) = Err e \/ (snd (getDB o s) = Ok tt /\ rq = Fails e)) /\
  (forall s1 l, getAppsByCategory o rq c s = (s1, Ok l) ->
     Permutation l (filter (fun r => String.eqb (category r) c) (records (db s)))) /\
  (reachable typed_app s -> is_category c = false ->
     forall s1 l, getAppsByCategory o rq c s = (s1, Ok l) -> l = []).
Proof.
  assert (forall s1 l, getAppsByCategory o rq c s = (s1, Ok l) ->
            Permutation l (filter (fun r => String.eqb (category r) c)
                             (records (db s)))) as Hperm.
  { intros s1 l Hg. apply getAppsByCategory_spec in Hg as [_ ->].
    apply filter_perm, sort_by_perm. }
  split; [|split; [|split; [exact Hperm|]]].
  - intros c' e. unfold getAppsByCategory.
    destruct (getDB o s) as [s' [[]|e']]; destruct rq as [|e'']; simpl;
      split; intros H; (discriminate || exact H).
  - intros s1 e. unfold getAppsByCategory.
    destruct (getDB o s) as [s' [[]|e']]; destruct rq as [|e''];
      try discriminate; intros H; injection H as <- <-.
    + right. split; reflexivity.
    + left. reflexivity.
    + left. reflexivity.
  - intros Hr Hc s1 l Hg. apply Hperm in Hg.
    assert (filter (fun r => String.eqb (category r) c) (records (db s)) = [])
      as Hnil.
    { pose proof (reachable_records typed_app
                    (fun r => is_category (category r) = true) s
                    (fun a now k Ha => Ha) Hr) as Hcat.
      clear Hperm Hg.
      induction Hcat as [|r l' Hr' _ IH]; simpl; [reflexivity|].
      destruct (String.eqb (category r) c) eqn:E; [|exact IH].
      apply String.eqb_eq in E. congruence. }
    rewrite Hnil in Hg. now apply Permutation_nil.
Qed.

Lemma getAppsByCategory_does_not_validate_witness :
  reachable typed_app demo_store /\ is_category "All" = false /\
  (forall s1 l, getAppsByCategory Fulfilled Completes "All" demo_store = (s1, Ok l) ->
     l = []).
Proof.
  assert (reachable typed_app demo_store) as Hr
    by (apply run_reachable; [constructor|reflexivity]).
  split; [exact Hr|split; [reflexivity|]].
  apply (proj2 (proj2 (proj2 (getAppsByCategory_does_not_validate Fulfilled Completes
                                "All" demo_store)))); [exact Hr|reflexivity].
Defined.

(** C5 (counterexample): [App] has an optional [id] which [addApp] passes
    on to [add]; a record added again with its former identifier after it
    was deleted gets that identifier back, so two successive [addApp] calls
    return 1 and 1. *)
Lemma addApp_ids_repeat_with_caller_id :
  snd (run init_store readd_ops) = [1; 1] /\
  ~ NoDup (snd (run init_store readd_ops)) /\
  ~ StronglySorted Z.lt (snd (run init_store readd_ops)).
Proof.
  split; [reflexivity|]. change (snd (run init_store readd_ops)) with [1; 1].
  split.
  - intros H. inversion H as [|? ? Hn _]; subst. apply Hn. now left.
  - intros H. apply StronglySorted_inv in H as [_ H]. inversion H. lia.
Qed.

(** C5 (amended): along any run whose [addApp] calls pass records without an
    [id] (as every caller does), the returned identifiers are the key
    generator's successive values: consecutive integers from its value at
    the start (1 on a fresh store), hence strictly increasing and pairwise
    distinct, whatever deletions, reads and failed calls happen in between.
    A record passed with an [id] is stored under that [id], which [addApp]
    returns. *)
Theorem generated_ids_strictly_increase s ops :
  forallb add_without_id ops = true ->
  snd (run s ops) =
    map (fun i => current_number (db s) + Z.of_nat i)
      (seq 0 (List.length (snd (run s ops)))) /\
  StronglySorted Z.lt (snd (run s ops)) /\
  (s = init_store -> forall k ks, snd (run s ops) = k :: ks -> k = 1) /\
  (forall o rq now app s1 k k0, id app = Some k0 ->
     addApp o rq now app s = (s1, Ok k) ->
     k = k0 /\ In (with_uploadDate now app) (records (db s1))).
Proof.
  intros Hops. pose proof (run_ids_consecutive s ops Hops) as Hc.
  split; [exact Hc|]. split; [rewrite Hc; apply consecutive_sorted|]. split.
  - intros -> k ks Hk. rewrite Hc in Hk.
    destruct (List.length (snd (run init_store ops))); simpl in Hk; [discriminate|].
    injection Hk as Hk _. rewrite <- Hk. reflexivity.
  - intros o rq now app s1 k k0 Hid Hadd.
    apply addApp_spec in Hadd as (_ & _ & Ha).
    apply os_add_spec in Ha as (Hrec & _ & Hsome).
    destruct (Hsome k0 Hid) as (-> & _ & _). split; [reflexivity|].
    rewrite Hrec, (with_id_self k0 (with_uploadDate now app) Hid).
    apply (Permutation_in _ (Permutation_sym (store_insert_perm _ _))). now left.
Qed.

Lemma generated_ids_strictly_increase_witness :
  forallb add_without_id demo_ops = true /\
  (snd (run init_store demo_ops) =
     map (fun i => current_number (db init_store) + Z.of_nat i)
       (seq 0 (List.length (snd (run init_store demo_ops)))) /\
   StronglySorted Z.lt (snd (run init_store demo_ops)) /\
   (init_store = init_store -> forall k ks,
      snd (run init_store demo_ops) = k :: ks -> k = 1) /\
   (forall o rq now app s1 k k0, id app = Some k0 ->
      addApp o rq now app init_store = (s1, Ok k) ->
      k = k0 /\ In (with_uploadDate now app) (records (db s1)))).
Proof.
  split; [reflexivity|].
  apply (generated_ids_strictly_increase init_store demo_ops). reflexivity.
Defined.

(** C8 (counterexample): on a fresh database the upgrade creates a fourth
    lookup structure, the index on [ownerId]. *)
Lemma fresh_schema_has_ownerId_index :
  exists st, open_schema 0 None = Some st /\ In "ownerId"%string (indexNames st).
Proof.
  exists (mkStoreSchema "id" true ["uploadDate"; "ownerId"; "category"]%string).
  split; [reflexivity|simpl; tauto].
Qed.

(** C8 (amended): opening a database older than version 5 with no "apps"
    store creates it with primary key "id" (auto-increment) and exactly the
    three indexes uploadDate, ownerId and category; an existing "apps" store
    keeps its key and indexes and gains a category index if it lacked one;
    at version 5 or later nothing changes. *)
Theorem open_schema_indexes :
  (forall v, v < dbVersion ->
     open_schema v None =
       Some (mkStoreSchema "id" true ["uploadDate"; "ownerId"; "category"]%string)) /\
  (forall v st, v < dbVersion ->
     open_schema v (Some st) =
       Some (if contains "category" (indexNames st) then st
             else createIndex "category" st)) /\
  (forall v apps, dbVersion <= v -> open_schema v apps = apps).
Proof.
  unfold open_schema, upgrade, dbVersion.
  split; [|split].
  - intros v Hv. apply Z.ltb_lt in Hv. rewrite Hv. reflexivity.
  - intros v st Hv. apply Z.ltb_lt in Hv. rewrite Hv. reflexivity.
  - intros v apps Hv. apply Z.ltb_ge in Hv. rewrite Hv. reflexivity.
Qed.

Lemma open_schema_indexes_witness :
  3 < dbVersion /\
  open_schema 3 (Some (mkStoreSchema "id" true ["uploadDate"; "ownerId"]%string)) =
    Some (mkStoreSchema "id" true ["uploadDate"; "ownerId"; "category"]%string).
Proof.
  split; [reflexivity|].
  apply (proj1 (proj2 open_schema_indexes)). reflexivity.
Defined.

(** C9: in every state reached through calls that pass [addApp] values of
    the declared type [App] (category a member of the union), every stored
    record's category is a member of [CATEGORIES]; [addApp] adds no check
    of its own, and no other operation stores a record. *)
Theorem stored_categories_in_enumeration s :
  reachable typed_app s ->
  Forall (fun r => is_category (category r) = true) (records (db s)).
Proof.
  apply reachable_records. intros a now k Ha. exact Ha.
Qed.

Lemma stored_categories_in_enumeration_witness :
  reachable typed_app demo_store /\
  Forall (fun r => is_category (category r) = true) (records (db demo_store)).
Proof.
  assert (reachable typed_app demo_store) as Hr
    by (apply run_reachable; [constructor|reflexivity]).
  split; [exact Hr|]. exact (stored_categories_in_enumeration demo_store Hr).
Defined.

(** C10: a rejected [openDB] is never left cached: in every reachable state
    the cached promise is absent or fulfilled, and when [getDB] fails it
    resets the cache, the Store operation rejects with the same error
    (whatever the engine would have done with its request), and the next
    call opens the database afresh. *)
Theorem getDB_never_caches_rejection acc s :
  reachable acc s ->
  (forall e, dbPromise s <> Some (Rejected e)) /\
  (forall o e, snd (getDB o s) = Err e ->
     dbPromise (fst (getDB o s)) = None /\
     (forall rq now a, addApp o rq now a s = (fst (getDB o s), Err e)) /\
     (forall rq, getAllApps o rq s = (fst (getDB o s), Err e)) /\
     (forall rq c, getAppsByCategory o rq c s = (fst (getDB o s), Err e)) /\
     (forall rq k, deleteApp o rq k s = (fst (getDB o s), Err e)) /\
     (forall o', snd (getDB o' (fst (getDB o s))) = settle o')).
Proof.
  intros Hr. split; [exact (reachable_no_rejection _ _ Hr)|].
  intros o e He.
  destruct (getDB o s) as [s1 r] eqn:Hg. simpl in He |- *. subst r.
  pose proof (getDB_err _ _ _ _ Hg) as Hnone.
  unfold addApp, getAllApps, getAppsByCategory, deleteApp. rewrite Hg.
  split; [exact Hnone|]. split; [intros; reflexivity|].
  split; [intros; reflexivity|]. split; [intros; reflexivity|].
  split; [intros; reflexivity|].
  intros o'. unfold getDB, initDB. rewrite Hnone. destruct o'; reflexivity.
Qed.

Lemma getDB_never_caches_rejection_witness :
  reachable any_app init_store /\
  snd (getDB (Rejected (OpenError "blocked")) init_store) =
    Err (OpenError "blocked") /\
  (dbPromise (fst (getDB (Rejected (OpenError "blocked")) init_store)) = None /\
   (forall rq now a, addApp (Rejected (OpenError "blocked")) rq now a init_store =
      (fst (getDB (Rejected (OpenError "blocked")) init_store),
       Err (OpenError "blocked"))) /\
   (forall rq, getAllApps (Rejected (OpenError "blocked")) rq init_store =
      (fst (getDB (Rejected (OpenError "blocked")) init_store),
       Err (OpenError "blocked"))) /\
   (forall rq c, getAppsByCategory (Rejected (OpenError "blocked")) rq c init_store =
      (fst (getDB (Rejected (OpenError "blocked")) init_store),
       Err (OpenError "blocked"))) /\
   (forall rq k, deleteApp (Rejected (OpenError "blocked")) rq k init_store =
      (fst (getDB (Rejected (OpenError "blocked")) init_store),
       Err (OpenError "blocked"))) /\
   (forall o', snd (getDB o' (fst (getDB (Rejected (OpenError "blocked"))
                                     init_store))) = settle o')).
Proof.
  assert (reachable any_app init_store) as Hr by constructor.
  assert (snd (getDB (Rejected (OpenError "blocked")) init_store) =
            Err (OpenError "blocked")) as He by reflexivity.
  split; [exact Hr|split; [exact He|]].
  exact (proj2 (getDB_never_caches_rejection any_app init_store Hr) _ _ He).
Defined.

End Claims.

(** * Index order: a total order on records with distinct keys *)

Module OrderFacts.
Import Db SortFacts StoreFacts OpFacts.

Lemma string_lt_trans a b c :
  String.compare a b = Lt -> String.compare b c = Lt -> String.compare a c = Lt.
Proof.
  revert b c; induction a as [|x a IH]; intros [|y b] [|z c]; simpl;
    try discriminate; try reflexivity.
  unfold Ascii.compare.
  destruct (N.compare_spec (Ascii.N_of_ascii x) (Ascii.N_of_ascii y)) as [E1|E1|E1];
  destruct (N.compare_spec (Ascii.N_of_ascii y) (Ascii.N_of_ascii z)) as [E2|E2|E2];
  destruct (N.compare_spec (Ascii.N_of_ascii x) (Ascii.N_of_ascii z)) as [E3|E3|E3];
  intros H1 H2; try discriminate; try reflexivity; try (exfalso; lia).
  eapply IH; eassumption.
Qed.

Lemma index_le_iff idx a b :
  index_le idx a b = true <->
  String.compare (index_key idx a) (index_key idx b) = Lt \/
  (String.compare (index_key idx a) (index_key idx b) = Eq /\ key a <= key b).
Proof.
  unfold index_le, String.ltb.
  destruct (String.compare (index_key idx a) (index_key idx b)) eqn:Hc; simpl.
  - apply String.compare_eq_iff in Hc. rewrite Hc, String.eqb_refl. simpl.
    rewrite Z.leb_le. split; [intros H; right; split; [reflexivity|exact H]|].
    intros [H|[_ H]]; [discriminate|exact H].
  - split; [intros _; left; reflexivity|reflexivity].
  - destruct (String.eqb_spec (index_key idx a) (index_key idx b)) as [E|E].
    + rewrite E, string_compare_refl in Hc. discriminate.
    + simpl. split; [discriminate|]. intros [H|[H _]]; discriminate.
Qed.

Lemma index_le_trans idx a b c :
  index_le idx a b = true -> index_le idx b c = true -> index_le idx a c = true.
Proof.
  rewrite !index_le_iff.
  intros [H1|[H1 K1]] [H2|[H2 K2]].
  - left. eapply string_lt_trans; eassumption.
  - apply String.compare_eq_iff in H2. rewrite <- H2. now left.
  - apply String.compare_eq_iff in H1. rewrite H1. now left.
  - apply String.compare_eq_iff in H1, H2. right. rewrite H1, H2.
    split; [apply string_compare_refl|lia].
Qed.

Lemma index_le_keys idx a b :
  index_le idx a b = true -> index_le idx b a = true -> key a = key b.
Proof.
  rewrite !index_le_iff, (String.compare_antisym (index_key idx b)).
  destruct (String.compare (index_key idx a) (index_key idx b)); simpl;
    intros [H1|[H1 K1]] [H2|[H2 K2]]; try discriminate; lia.
Qed.

Lemma StronglySorted_impl_in {A} (R R' : A -> A -> Prop) l :
  (forall a b, In a l -> In b l -> R a b -> R' a b) ->
  StronglySorted R l -> StronglySorted R' l.
Proof.
  induction 2 as [|x l _ IH Hx]; constructor.
  - apply IH. intros a b Ha Hb. apply H; right; assumption.
  - apply Forall_forall. intros y Hy. apply H; [left; reflexivity|right; exact Hy|].
    exact (proj1 (Forall_forall _ _) Hx y Hy).
Qed.

(** Two strongly sorted permutations of each other are equal when the order
    is antisymmetric on their elements. *)
Lemma StronglySorted_perm_eq {A} (R : A -> A -> Prop) l1 l2 :
  (forall a b, In a l1 -> In b l1 -> R a b -> R b a -> a = b) ->
  StronglySorted R l1 -> StronglySorted R l2 -> Permutation l1 l2 -> l1 = l2.
Proof.
  revert l2; induction l1 as [|x l1 IH]; intros l2 Hanti H1 H2 Hp.
  - symmetry. now apply Permutation_nil.
  - destruct l2 as [|y l2]; [apply Permutation_sym, Permutation_nil_cons in Hp; contradiction|].
    apply StronglySorted_inv in H1 as [H1 Hx].
    apply StronglySorted_inv in H2 as [H2 Hy].
    assert (x = y) as <-.
    { assert (In y (x :: l1)) as Hyin
        by (apply (Permutation_in _ (Permutation_sym Hp)); now left).
      assert (In x (y :: l2)) as Hxin by (apply (Permutation_in _ Hp); now left).
      destruct Hyin as [|Hyin]; [assumption|].
      destruct Hxin as [|Hxin]; [symmetry; assumption|].
      apply Hanti; [now left|now right| |].
      - exact (proj1 (Forall_forall _ _) Hx y Hyin).
      - exact (proj1 (Forall_forall _ _) Hy x Hxin). }
    f_equal. apply IH; [|exact H1|exact H2|exact (Permutation_cons_inv Hp)].
    intros a b Ha Hb. apply Hanti; right; assumption.
Qed.

Lemma key_inj l a b :
  StronglySorted (fun a b => key a < key b) l -> In a l -> In b l ->
  key a = key b -> a = b.
Proof.
  induction 1 as [|x l _ IH Hx]; [contradiction|].
  intros [<-|Ha] [<-|Hb] Hk; try reflexivity.
  - pose proof (proj1 (Forall_forall _ _) Hx b Hb) as H. cbv beta in H. lia.
  - pose proof (proj1 (Forall_forall _ _) Hx a Ha) as H. cbv beta in H. lia.
  - now apply IH.
Qed.

Lemma getAllFromIndex_sorted os idx q :
  StronglySorted (fun a b => index_le idx a b = true) (os_getAllFromIndex os idx q).
Proof.
  apply StronglySorted_filter, Sorted_StronglySorted.
  - intros a b c. apply index_le_trans.
  - apply sort_by_sorted, index_le_total.
Qed.

(** On a well-formed store an index read is the one list that is ordered by
    the index and holds the matching records. *)
Lemma getAllFromIndex_unique os idx q L :
  wf os ->
  StronglySorted (fun a b => index_le idx a b = true) L ->
  Permutation L (filter (fun r => match q with
                                  | None => true
                                  | Some v => String.eqb (index_key idx r) v
                                  end) (records os)) ->
  os_getAllFromIndex os idx q = L.
Proof.
  intros (Hs & _ & _) HL Hp.
  apply StronglySorted_perm_eq with (R := fun a b => index_le idx a b = true).
  - intros a b Ha Hb Hab Hba.
    apply filter_In in Ha as [Ha _]. apply filter_In in Hb as [Hb _].
    apply (Permutation_in _ (sort_by_perm _ _)) in Ha.
    apply (Permutation_in _ (sort_by_perm _ _)) in Hb.
    apply (key_inj _ _ _ Hs Ha Hb). eapply index_le_keys; eassumption.
  - apply getAllFromIndex_sorted.
  - exact HL.
  - unfold os_getAllFromIndex. rewrite Hp. apply filter_perm, sort_by_perm.
Qed.

(** [getAppsByCategory] lists the matching records in identifier order. *)
Lemma category_read_in_key_order os c :
  wf os ->
  os_getAllFromIndex os ICategory (Some c) =
    filter (fun r => String.eqb (category r) c) (records os).
Proof.
  intros Hwf. apply getAllFromIndex_unique; [exact Hwf| |reflexivity].
  destruct Hwf as (Hs & _ & _).
  apply (StronglySorted_impl_in (fun a b => key a < key b));
    [|now apply StronglySorted_filter].
  intros a b Ha Hb Hab.
  apply filter_In in Ha as [_ Ha]. apply filter_In in Hb as [_ Hb].
  apply String.eqb_eq in Ha, Hb.
  apply index_le_of_leb_lt; [|exact Hab]. simpl. rewrite Ha, Hb.
  destruct (String.leb_total c c); assumption.
Qed.

Lemma StronglySorted_snoc {A} (R : A -> A -> Prop) l x :
  StronglySorted R l -> Forall (fun y => R y x) l -> StronglySorted R (l ++ [x]).
Proof.
  induction 1 as [|y l _ IH Hy]; simpl; intros Hx.
  - repeat constructor.
  - inversion Hx as [|? ? Hyx Hx']; subst. constructor; [now apply IH|].
    apply Forall_app. split; [exact Hy|]. now constructor.
Qed.

Lemma StronglySorted_rev {A} (R : A -> A -> Prop) l :
  StronglySorted R l -> StronglySorted (fun a b => R b a) (rev l).
Proof.
  induction 1 as [|x l _ IH Hx]; simpl; [constructor|].
  apply StronglySorted_snoc; [exact IH|]. now apply Forall_rev.
Qed.

End OrderFacts.

(** * Facts about the handle, the reads and the partition by category *)

Module ExtraFacts.
Import Db Ui SortFacts StoreFacts OpFacts OrderFacts.

Lemma getDB_ok_cached o s s1 u :
  getDB o s = (s1, Ok u) -> dbPromise s1 = Some Fulfilled.
Proof.
  unfold getDB, initDB. destruct (dbPromise s) as [[|e]|] eqn:E.
  - intros H; injection H as <- _. exact E.
  - discriminate.
  - destruct o; [|discriminate]. intros H; injection H as <- _. reflexivity.
Qed.

Lemma getDB_cached o s : dbPromise s = Some Fulfilled -> getDB o s = (s, Ok tt).
Proof. unfold getDB, initDB. intros ->. reflexivity. Qed.

Lemma getAllApps_cached o s :
  dbPromise s = Some Fulfilled ->
  getAllApps o Completes s = (s, Ok (os_getAllFromIndex (db s) IUploadDate None)).
Proof. intros H. unfold getAllApps. rewrite (getDB_cached o s H). reflexivity. Qed.

Lemma getAppsByCategory_cached o c s :
  dbPromise s = Some Fulfilled ->
  getAppsByCategory o Completes c s =
    (s, Ok (os_getAllFromIndex (db s) ICategory (Some c))).
Proof. intros H. unfold getAppsByCategory. rewrite (getDB_cached o s H). reflexivity. Qed.

Lemma getAllApps_ok o rq s s1 l :
  getAllApps o rq s = (s1, Ok l) ->
  db s1 = db s /\ dbPromise s1 = Some Fulfilled /\
  l = os_getAllFromIndex (db s) IUploadDate None.
Proof.
  unfold getAllApps. destruct (getDB o s) as [s' [u|e]] eqn:Hg; [|discriminate].
  destruct rq; [|discriminate].
  intros H; injection H as <- <-.
  split; [exact (getDB_db' _ _ _ _ Hg)|]. split; [exact (getDB_ok_cached _ _ _ _ Hg)|].
  now rewrite (getDB_db' _ _ _ _ Hg).
Qed.

Lemma getAppsByCategory_ok o rq c s s1 l :
  getAppsByCategory o rq c s = (s1, Ok l) ->
  db s1 = db s /\ dbPromise s1 = Some Fulfilled /\
  l = os_getAllFromIndex (db s) ICategory (Some c).
Proof.
  unfold getAppsByCategory. destruct (getDB o s) as [s' [u|e]] eqn:Hg; [|discriminate].
  destruct rq; [|discriminate].
  intros H; injection H as <- <-.
  split; [exact (getDB_db' _ _ _ _ Hg)|]. split; [exact (getDB_ok_cached _ _ _ _ Hg)|].
  now rewrite (getDB_db' _ _ _ _ Hg).
Qed.

Lemma deleteApp_ok o rq k s s1 :
  deleteApp o rq k s = (s1, Ok tt) ->
  db s1 = os_delete (db s) k /\ dbPromise s1 = Some Fulfilled.
Proof.
  unfold deleteApp. destruct (getDB o s) as [s' [u|e]] eqn:Hg; [|discriminate].
  destruct rq; [|discriminate].
  intros H; injection H as <-. simpl.
  rewrite (getDB_db' _ _ _ _ Hg). split; [reflexivity|].
  exact (getDB_ok_cached _ _ _ _ Hg).
Qed.

(** A failed call leaves the state [getDB] left: the cache reset when the
    open failed, the handle kept when the engine failed the request. *)
Lemma deleteApp_err o rq k s s1 e :
  deleteApp o rq k s = (s1, Err e) ->
  s1 = fst (getDB o s) /\
  (snd (getDB o s) = Err e \/ (snd (getDB o s) = Ok tt /\ rq = Fails e)).
Proof.
  unfold deleteApp. destruct (getDB o s) as [s' [[]|e']] eqn:Hg.
  - destruct rq as [|e'']; [discriminate|].
    intros H; injection H as <- <-. split; [reflexivity|right; split; reflexivity].
  - intros H; injection H as <- <-. split; [reflexivity|left; reflexivity].
Qed.

Lemma addApp_err_db o rq now app s s1 e :
  addApp o rq now app s = (s1, Err e) -> db s1 = db s.
Proof.
  unfold addApp. destruct (getDB o s) as [s' [u|e']] eqn:Hg;
    pose proof (getDB_db' _ _ _ _ Hg) as Hdb.
  - destruct rq as [|e''].
    + destruct (os_add (db s') (with_uploadDate now app)) as [[os' k]|e'];
        [discriminate|]. intros H; injection H as <- _. exact Hdb.
    + intros H; injection H as <- _. exact Hdb.
  - intros H; injection H as <- _. exact Hdb.
Qed.

Lemma addApp_ok_cached o rq now app s s1 k :
  addApp o rq now app s = (s1, Ok k) -> dbPromise s1 = Some Fulfilled.
Proof.
  unfold addApp. destruct (getDB o s) as [s' [u|e]] eqn:Hg; [|discriminate].
  destruct rq; [|discriminate].
  destruct (os_add (db s') (with_uploadDate now app)) as [[os' k']|e]; [|discriminate].
  intros H; injection H as <- _. exact (getDB_ok_cached _ _ _ _ Hg).
Qed.

(** The reads leave the records as they are, whatever their outcome. *)
Lemma getAllApps_db o rq s : db (fst (getAllApps o rq s)) = db s.
Proof.
  unfold getAllApps. destruct (getDB o s) as [s' [u|e]] eqn:Hg; [destruct rq|];
    exact (getDB_db' _ _ _ _ Hg).
Qed.

Lemma getAppsByCategory_db o rq c s : db (fst (getAppsByCategory o rq c s)) = db s.
Proof.
  unfold getAppsByCategory. destruct (getDB o s) as [s' [u|e]] eqn:Hg; [destruct rq|];
    exact (getDB_db' _ _ _ _ Hg).
Qed.

Lemma filter_true {A} (l : list A) : filter (fun _ => true) l = l.
Proof. induction l as [|x l IH]; simpl; [reflexivity|now rewrite IH]. Qed.

Lemma getAllFromIndex_in os idx q r :
  In r (os_getAllFromIndex os idx q) -> In r (records os).
Proof.
  unfold os_getAllFromIndex. intros H. apply filter_In in H as [H _].
  exact (Permutation_in _ (sort_by_perm _ _) H).
Qed.

Lemma getAllFromIndex_perm os idx :
  Permutation (os_getAllFromIndex os idx None) (records os).
Proof. unfold os_getAllFromIndex. rewrite filter_true. apply sort_by_perm. Qed.

Lemma filter_split_perm {A} (f : A -> bool) l :
  Permutation (filter f l ++ filter (fun x => negb (f x)) l) l.
Proof.
  induction l as [|x l IH]; simpl; [constructor|].
  destruct (f x); simpl.
  - now apply perm_skip.
  - rewrite <- Permutation_middle. now apply perm_skip.
Qed.

Lemma filter_other_category c c' l :
  c' <> c ->
  filter (fun r => String.eqb (category r) c') l =
  filter (fun r => String.eqb (category r) c')
    (filter (fun r => negb (String.eqb (category r) c)) l).
Proof.
  intros Hne. induction l as [|x l IH]; simpl; [reflexivity|].
  destruct (String.eqb_spec (category x) c) as [E|E]; simpl.
  - rewrite E. destruct (String.eqb_spec c c') as [E'|E']; [congruence|exact IH].
  - destruct (String.eqb (category x) c'); [f_equal|]; exact IH.
Qed.

(** Filtering by each of a list of distinct categories splits a list whose
    categories are all among them. *)
Lemma concat_filter_partition (cs : list string) l :
  NoDup cs -> Forall (fun r => In (category r) cs) l ->
  Permutation (List.concat (map (fun c => filter (fun r => String.eqb (category r) c) l) cs)) l.
Proof.
  revert l; induction cs as [|c cs IH]; intros l Hnd Hin; simpl.
  - destruct l as [|r l]; [constructor|]. inversion Hin; contradiction.
  - apply NoDup_cons_iff in Hnd as [Hc Hnd].
    rewrite (map_ext_in _
      (fun c' => filter (fun r => String.eqb (category r) c')
                   (filter (fun r => negb (String.eqb (category r) c)) l))).
    + rewrite IH; [apply filter_split_perm|exact Hnd|].
      apply Forall_forall. intros r Hr. apply filter_In in Hr as [Hr Hne].
      destruct (proj1 (Forall_forall _ _) Hin r Hr) as [E|E]; [|exact E].
      rewrite E, String.eqb_refl in Hne. discriminate.
    + intros c' Hc'. apply filter_other_category. intros ->. contradiction.
Qed.

Lemma is_category_in c : is_category c = true -> In c CATEGORIES.
Proof.
  unfold is_category. intros H. apply existsb_exists in H as [x [Hx E]].
  apply String.eqb_eq in E. now subst.
Qed.

Lemma CATEGORIES_NoDup : NoDup CATEGORIES.
Proof.
  unfold CATEGORIES. repeat constructor; simpl; intuition discriminate.
Qed.

Lemma key_with_id k a : key (with_id k a) = k.
Proof. reflexivity. Qed.

Lemma getAllApps_err o rq s s1 e :
  getAllApps o rq s = (s1, Err e) ->
  s1 = fst (getDB o s) /\
  (snd (getDB o s) = Err e \/ (snd (getDB o s) = Ok tt /\ rq = Fails e)).
Proof.
  unfold getAllApps. destruct (getDB o s) as [s' [[]|e']] eqn:Hg.
  - destruct rq as [|e'']; [discriminate|].
    intros H; injection H as <- <-. split; [reflexivity|right; split; reflexivity].
  - intros H; injection H as <- <-. split; [reflexivity|left; reflexivity].
Qed.

Lemma getAppsByCategory_err o rq c s s1 e :
  getAppsByCategory o rq c s = (s1, Err e) ->
  s1 = fst (getDB o s) /\
  (snd (getDB o s) = Err e \/ (snd (getDB o s) = Ok tt /\ rq = Fails e)).
Proof.
  unfold getAppsByCategory. destruct (getDB o s) as [s' [[]|e']] eqn:Hg.
  - destruct rq as [|e'']; [discriminate|].
    intros H; injection H as <- <-. split; [reflexivity|right; split; reflexivity].
  - intros H; injection H as <- <-. split; [reflexivity|left; reflexivity].
Qed.

Lemma getDB_err_state o s e :
  snd (getDB o s) = Err e -> dbPromise (fst (getDB o s)) = None /\ db (fst (getDB o s)) = db s.
Proof.
  intros H. split; [|apply getDB_db].
  destruct (getDB o s) as [s1 r] eqn:Hg. simpl in *. subst r.
  exact (getDB_err _ _ _ _ Hg).
Qed.

Lemma has_id_of_key k r : (key r =? k) = false -> has_id k r = false.
Proof. unfold has_id, key. destruct (id r); [exact (fun H => H)|reflexivity]. Qed.

Lemma Forall_getAllFromIndex (P : App -> Prop) os idx q :
  Forall P (records os) -> Forall P (os_getAllFromIndex os idx q).
Proof.
  intros H. apply Forall_forall. intros r Hr.
  exact (proj1 (Forall_forall _ _) H r (getAllFromIndex_in _ _ _ _ Hr)).
Qed.

Lemma deleted_absent o rq k s s1 :
  deleteApp o rq k s = (s1, Ok tt) -> Forall (fun r => has_id k r = false) (records (db s1)).
Proof.
  intros Hd. apply deleteApp_ok in Hd as [-> _]. simpl.
  apply Forall_forall. intros r Hr. apply filter_In in Hr as [_ Hr].
  apply has_id_of_key. now apply negb_true_iff.
Qed.

Lemma player_step_sync p ev :
  (exists q, sound p = Some q /\ Qeq q (slider_value p)) ->
  exists q, sound (player_step p ev) = Some q /\ Qeq q (slider_value (player_step p ev)).
Proof.
  destruct p as [[q|] v m]; intros [q' [Hs _]]; [|discriminate].
  destruct ev as [|x]; simpl.
  - destruct m; simpl; eexists; split; reflexivity.
  - exists x. split; [reflexivity|]. unfold slider_value; simpl.
    destruct (Qeq_bool x 0) eqn:E; [now apply Qeq_bool_iff|reflexivity].
Qed.

Lemma player_step_silent p ev : sound p = None -> player_step p ev = p.
Proof.
  intros H. destruct ev; simpl; [unfold toggleMute|unfold handleVolumeChange];
    rewrite H; reflexivity.
Qed.

Lemma audio_not_video t :
  String.prefix "audio/" t = true -> String.prefix "video/" t = false.
Proof.
  intros H. destruct (String.prefix "video/" t) eqn:V; [|reflexivity].
  apply String.prefix_correct in H, V. cbn [String.length] in H, V.
  rewrite H in V. discriminate.
Qed.

Lemma map_Ok_inv {A B} (f : A -> result B) (g : A -> B) cs ls :
  map f cs = map (@Ok B) ls -> (forall c l, f c = Ok l -> l = g c) -> ls = map g cs.
Proof.
  revert ls; induction cs as [|c cs IH]; intros [|l ls] H Hg; simpl in H;
    try discriminate; [reflexivity|].
  injection H as Hc Hcs. simpl. f_equal; [exact (Hg c l Hc)|exact (IH ls Hcs Hg)].
Qed.

End ExtraFacts.

(** * Further properties of the Store and of its callers *)

Module Extras.
Import Db Ui SortFacts StoreFacts OpFacts OrderFacts ExtraFacts.

(** X3 (getAppsByCategory): the apps of a category come back in identifier
    order, that is in the order they were stored. *)
Theorem getAppsByCategory_in_key_order acc o rq c s s1 l :
  reachable acc s -> getAppsByCategory o rq c s = (s1, Ok l) ->
  l = filter (fun r => String.eqb (category r) c) (records (db s)) /\
  StronglySorted (fun a b => key a < key b) l.
Proof.
  intros Hr Hg. apply getAppsByCategory_ok in Hg as (_ & _ & ->).
  pose proof (reachable_wf _ _ Hr) as Hwf.
  rewrite category_read_in_key_order by exact Hwf.
  split; [reflexivity|]. apply StronglySorted_filter. exact (proj1 Hwf).
Qed.

Lemma getAppsByCategory_in_key_order_witness :
  reachable any_app demo_store /\
  getAppsByCategory Fulfilled Completes "Games"%string demo_store =
    (demo_store, Ok (os_getAllFromIndex (db demo_store) ICategory (Some "Games"%string))) /\
  (os_getAllFromIndex (db demo_store) ICategory (Some "Games"%string) =
     filter (fun r => String.eqb (category r) "Games"%string) (records (db demo_store)) /\
   StronglySorted (fun a b => key a < key b)
     (os_getAllFromIndex (db demo_store) ICategory (Some "Games"%string))).
Proof.
  assert (Hr : reachable any_app demo_store)
    by (apply run_reachable; [constructor|reflexivity]).
  assert (Hg : getAppsByCategory Fulfilled Completes "Games"%string demo_store =
    (demo_store, Ok (os_getAllFromIndex (db demo_store) ICategory (Some "Games"%string))))
    by reflexivity.
  split; [exact Hr|]. split; [exact Hg|].
  exact (getAppsByCategory_in_key_order any_app Fulfilled Completes "Games"%string
           demo_store _ _ Hr Hg).
Defined.

(** X4 (getAppsByCategory, getAllApps, CATEGORIES): when every stored
    category is a member of CATEGORIES, then after a successful
    [getAllApps] the reads of the six categories succeed whenever the engine
    completes them, and whenever all six succeed they together hold exactly
    the apps [getAllApps] returned. *)
Theorem category_reads_partition_all o rq o' s s1 l :
  reachable typed_app s -> getAllApps o rq s = (s1, Ok l) ->
  (exists ls, map (fun c => snd (getAppsByCategory o' Completes c s1)) CATEGORIES =
                map Ok ls) /\
  (forall rqs ls,
     map (fun c => snd (getAppsByCategory o' (rqs c) c s1)) CATEGORIES = map Ok ls ->
     Permutation (List.concat ls) l).
Proof.
  intros Hr Hg. apply getAllApps_ok in Hg as (Hdb & Hp & ->).
  pose proof (reachable_wf _ _ Hr) as Hwf.
  split.
  - exists (map (fun c => filter (fun r => String.eqb (category r) c) (records (db s)))
              CATEGORIES).
    rewrite map_map. apply map_ext. intros c.
    rewrite (getAppsByCategory_cached o' c s1 Hp). simpl. rewrite Hdb.
    rewrite category_read_in_key_order by exact Hwf. reflexivity.
  - intros rqs ls Hls.
    rewrite (map_Ok_inv (fun c => snd (getAppsByCategory o' (rqs c) c s1))
               (fun c => filter (fun r => String.eqb (category r) c) (records (db s)))
               CATEGORIES ls); [|exact Hls|].
    + eapply Permutation_trans; [|apply Permutation_sym, getAllFromIndex_perm].
      apply concat_filter_partition; [exact CATEGORIES_NoDup|].
      eapply Forall_impl; [intros r; apply is_category_in|].
      apply (reachable_records typed_app (fun r => is_category (category r) = true));
        [intros a now k Ha; exact Ha|exact Hr].
    + intros c l' Hc. destruct (getAppsByCategory o' (rqs c) c s1) as [s2 r] eqn:E.
      simpl in Hc. subst r. apply getAppsByCategory_ok in E as (_ & _ & ->).
      rewrite Hdb. apply category_read_in_key_order. exact Hwf.
Qed.

Lemma category_reads_partition_all_witness :
  reachable typed_app demo_store /\
  getAllApps Fulfilled Completes demo_store =
    (demo_store, Ok (os_getAllFromIndex (db demo_store) IUploadDate None)) /\
  (exists ls,
     map (fun c => snd (getAppsByCategory Fulfilled Completes c demo_store)) CATEGORIES =
       map Ok ls) /\
  (forall rqs ls,
     map (fun c => snd (getAppsByCategory Fulfilled (rqs c) c demo_store)) CATEGORIES =
       map Ok ls ->
     Permutation (List.concat ls) (os_getAllFromIndex (db demo_store) IUploadDate None)).
Proof.
  assert (Hr : reachable typed_app demo_store)
    by (apply run_reachable; [constructor|reflexivity]).
  assert (Hg : getAllApps Fulfilled Completes demo_store =
    (demo_store, Ok (os_getAllFromIndex (db demo_store) IUploadDate None)))
    by reflexivity.
  split; [exact Hr|]. split; [exact Hg|].
  exact (category_reads_partition_all Fulfilled Completes Fulfilled demo_store _ _ Hr Hg).
Defined.

(** X5 (deleteApp, getAllApps): reading all apps after a successful
    [deleteApp k] gives the previous read with the app of identifier [k]
    taken out, the others in the same order. *)
Theorem deleteApp_then_getAllApps acc o rq o' rq' o'' rq'' k s s1 l0 s2 s3 l :
  reachable acc s -> getAllApps o rq s = (s1, Ok l0) ->
  deleteApp o' rq' k s1 = (s2, Ok tt) -> getAllApps o'' rq'' s2 = (s3, Ok l) ->
  l = filter (fun r => negb (has_id k r)) l0.
Proof.
  intros Hr H0 Hd H1.
  apply getAllApps_ok in H0 as (Hdb1 & _ & ->).
  apply deleteApp_ok in Hd as (Hdb2 & _).
  apply getAllApps_ok in H1 as (_ & _ & ->).
  rewrite Hdb2, Hdb1. pose proof (reachable_wf _ _ Hr) as Hwf.
  apply getAllFromIndex_unique.
  - now apply os_delete_wf.
  - apply StronglySorted_filter, getAllFromIndex_sorted.
  - rewrite filter_true. unfold os_delete; simpl.
    apply Permutation_trans with (filter (fun r => negb (has_id k r)) (records (db s)));
      [apply filter_perm, getAllFromIndex_perm|].
    apply Permutation_refl'. apply filter_ext_in. intros r Hr'.
    destruct Hwf as (_ & Hid & _).
    pose proof (proj1 (Forall_forall _ _) Hid r Hr') as Hn.
    unfold has_id, key. destruct (id r) eqn:E; [reflexivity|contradiction].
Qed.

Lemma deleteApp_then_getAllApps_witness :
  reachable any_app demo_store /\
  getAllApps Fulfilled Completes demo_store =
    (demo_store, Ok (os_getAllFromIndex (db demo_store) IUploadDate None)) /\
  deleteApp Fulfilled Completes 2 demo_store =
    (fst (deleteApp Fulfilled Completes 2 demo_store), Ok tt) /\
  getAllApps Fulfilled Completes (fst (deleteApp Fulfilled Completes 2 demo_store)) =
    (fst (deleteApp Fulfilled Completes 2 demo_store),
     Ok (os_getAllFromIndex (db (fst (deleteApp Fulfilled Completes 2 demo_store)))
           IUploadDate None)) /\
  os_getAllFromIndex (db (fst (deleteApp Fulfilled Completes 2 demo_store))) IUploadDate None =
    filter (fun r => negb (has_id 2 r)) (os_getAllFromIndex (db demo_store) IUploadDate None).
Proof.
  assert (Hr : reachable any_app demo_store)
    by (apply run_reachable; [constructor|reflexivity]).
  assert (H0 : getAllApps Fulfilled Completes demo_store =
    (demo_store, Ok (os_getAllFromIndex (db demo_store) IUploadDate None)))
    by reflexivity.
  assert (Hd : deleteApp Fulfilled Completes 2 demo_store =
    (fst (deleteApp Fulfilled Completes 2 demo_store), Ok tt)) by reflexivity.
  assert (H1 : getAllApps Fulfilled Completes (fst (deleteApp Fulfilled Completes 2 demo_store)) =
    (fst (deleteApp Fulfilled Completes 2 demo_store),
     Ok (os_getAllFromIndex (db (fst (deleteApp Fulfilled Completes 2 demo_store)))
           IUploadDate None)))
    by reflexivity.
  split; [exact Hr|]. split; [exact H0|]. split; [exact Hd|]. split; [exact H1|].
  exact (deleteApp_then_getAllApps any_app Fulfilled Completes Fulfilled Completes
           Fulfilled Completes 2 demo_store _ _ _ _ _ Hr H0 Hd H1).
Defined.

(** X6 (addApp, getAllApps): an app added without an [id] at a time no
    earlier than every stored [uploadDate] is listed last by the next
    [getAllApps], after the previous list unchanged. *)
Theorem addApp_lists_newest_last acc o rq o' rq' o'' rq'' now app s s1 l0 s2 k s3 l :
  reachable acc s -> id app = None ->
  Forall (fun r => String.leb (uploadDate r) now = true) (records (db s)) ->
  getAllApps o rq s = (s1, Ok l0) -> addApp o' rq' now app s1 = (s2, Ok k) ->
  getAllApps o'' rq'' s2 = (s3, Ok l) ->
  l = l0 ++ [with_id k (with_uploadDate now app)].
Proof.
  intros Hr Hnone Hdates H0 Ha H1.
  apply getAllApps_ok in H0 as (Hdb1 & _ & ->).
  apply getAllApps_ok in H1 as (_ & _ & ->).
  apply addApp_spec in Ha as (_ & _ & Hadd).
  rewrite Hdb1 in Hadd.
  pose proof (reachable_wf _ _ Hr) as Hwf.
  pose proof (os_add_spec _ _ _ _ Hadd) as (Hrec & Hgen & _).
  destruct (Hgen Hnone) as (Hk & Hmax & _).
  apply getAllFromIndex_unique.
  - eapply os_add_wf; eassumption.
  - apply StronglySorted_snoc; [apply getAllFromIndex_sorted|].
    apply Forall_forall. intros x Hx. apply getAllFromIndex_in in Hx.
    apply index_le_of_leb_lt.
    + cbn [index_key with_id with_uploadDate uploadDate].
      exact (proj1 (Forall_forall _ _) Hdates x Hx).
    + rewrite key_with_id, Hk. destruct Hwf as (_ & _ & [Hlt|Hlt]);
        [exact (proj1 (Forall_forall _ _) Hlt x Hx)|lia].
  - rewrite filter_true, Hrec.
    eapply Permutation_trans; [|apply Permutation_sym, store_insert_perm].
    eapply Permutation_trans; [|apply Permutation_sym, Permutation_cons_append].
    apply Permutation_app_tail, getAllFromIndex_perm.
Qed.

Lemma addApp_lists_newest_last_witness :
  reachable any_app demo_store /\ id (sample "Music"%string) = None /\
  Forall (fun r => String.leb (uploadDate r) "2026-01-02T08:00:00.000Z"%string = true)
    (records (db demo_store)) /\
  getAllApps Fulfilled Completes demo_store =
    (demo_store, Ok (os_getAllFromIndex (db demo_store) IUploadDate None)) /\
  addApp Fulfilled Completes "2026-01-02T08:00:00.000Z"%string (sample "Music"%string)
      demo_store =
    (fst (addApp Fulfilled Completes "2026-01-02T08:00:00.000Z"%string
            (sample "Music"%string) demo_store), Ok 4) /\
  getAllApps Fulfilled Completes
      (fst (addApp Fulfilled Completes "2026-01-02T08:00:00.000Z"%string
              (sample "Music"%string) demo_store)) =
    (fst (addApp Fulfilled Completes "2026-01-02T08:00:00.000Z"%string
            (sample "Music"%string) demo_store),
     Ok (os_getAllFromIndex
           (db (fst (addApp Fulfilled Completes "2026-01-02T08:00:00.000Z"%string
                       (sample "Music"%string) demo_store))) IUploadDate None)) /\
  os_getAllFromIndex
      (db (fst (addApp Fulfilled Completes "2026-01-02T08:00:00.000Z"%string
                  (sample "Music"%string) demo_store)))
      IUploadDate None =
    os_getAllFromIndex (db demo_store) IUploadDate None ++
      [with_id 4 (with_uploadDate "2026-01-02T08:00:00.000Z"%string (sample "Music"%string))].
Proof.
  assert (Hr : reachable any_app demo_store)
    by (apply run_reachable; [constructor|reflexivity]).
  assert (Hn : id (sample "Music"%string) = None) by reflexivity.
  assert (Hd : Forall (fun r => String.leb (uploadDate r) "2026-01-02T08:00:00.000Z"%string = true)
                 (records (db demo_store)))
    by (vm_compute; repeat constructor).
  assert (H0 : getAllApps Fulfilled Completes demo_store =
    (demo_store, Ok (os_getAllFromIndex (db demo_store) IUploadDate None)))
    by reflexivity.
  assert (Ha : addApp Fulfilled Completes "2026-01-02T08:00:00.000Z"%string
                 (sample "Music"%string) demo_store =
    (fst (addApp Fulfilled Completes "2026-01-02T08:00:00.000Z"%string
            (sample "Music"%string) demo_store), Ok 4))
    by reflexivity.
  assert (H1 : getAllApps Fulfilled Completes
      (fst (addApp Fulfilled Completes "2026-01-02T08:00:00.000Z"%string
              (sample "Music"%string) demo_store)) =
    (fst (addApp Fulfilled Completes "2026-01-02T08:00:00.000Z"%string
            (sample "Music"%string) demo_store),
     Ok (os_getAllFromIndex
           (db (fst (addApp Fulfilled Completes "2026-01-02T08:00:00.000Z"%string
                       (sample "Music"%string) demo_store))) IUploadDate None)))
    by reflexivity.
  split; [exact Hr|]. split; [exact Hn|]. split; [exact Hd|]. split; [exact H0|].
  split; [exact Ha|]. split; [exact H1|].
  exact (addApp_lists_newest_last any_app Fulfilled Completes Fulfilled Completes
           Fulfilled Completes "2026-01-02T08:00:00.000Z"%string (sample "Music"%string)
           demo_store _ _ _ _ _ _ Hr Hn Hd H0 Ha H1).
Defined.

(** X7 (AppList.loadApps): a load run by a callback whose captured [loading]
    is false and that reports no error shows, for the captured category
    "All", every stored app with the newest upload first (ties: higher
    identifier first), and for a captured category its apps with the highest
    identifier first; it clears [loading] and leaves the records alone. *)
Theorem loadApps_shows_newest_first acc cb o rq s st s1 st1 :
  reachable acc s -> cb_loading cb = false ->
  loadApps cb o rq s st = (s1, st1) -> errorMsg st1 = None ->
  db s1 = db s /\ loading st1 = false /\ selectedCategory st1 = selectedCategory st /\
  (cb_category cb = "All"%string ->
     Permutation (apps st1) (records (db s)) /\
     StronglySorted (fun a b => index_le IUploadDate b a = true) (apps st1)) /\
  (cb_category cb <> "All"%string ->
     apps st1 = rev (filter (fun r => String.eqb (category r) (cb_category cb))
                       (records (db s)))).
Proof.
  intros Hr Hl H Herr. unfold loadApps in H. rewrite Hl in H.
  destruct (String.eqb_spec (cb_category cb) "All") as [E|E].
  - destruct (getAllApps o rq s) as [s' [l|e]] eqn:Hg; injection H as <- <-;
      [|discriminate].
    apply getAllApps_ok in Hg as (Hdb & _ & ->). simpl.
    split; [exact Hdb|]. split; [reflexivity|]. split; [reflexivity|].
    split; [|intros C; contradiction]. intros _. split.
    + eapply Permutation_trans; [apply Permutation_sym, Permutation_rev|].
      apply getAllFromIndex_perm.
    + apply StronglySorted_rev, getAllFromIndex_sorted.
  - destruct (getAppsByCategory o rq (cb_category cb) s) as [s' [l|e]] eqn:Hg;
      injection H as <- <-; [|discriminate].
    apply getAppsByCategory_ok in Hg as (Hdb & _ & ->). simpl.
    split; [exact Hdb|]. split; [reflexivity|]. split; [reflexivity|].
    split; [intros C; contradiction|]. intros _.
    rewrite category_read_in_key_order by exact (reachable_wf _ _ Hr). reflexivity.
Qed.

Lemma loadApps_shows_newest_first_witness :
  reachable any_app demo_store /\
  cb_loading (current_callback (list_view "All")) = false /\
  loadApps (current_callback (list_view "All")) Fulfilled Completes demo_store
      (list_view "All") =
    (fst (loadApps (current_callback (list_view "All")) Fulfilled Completes demo_store
            (list_view "All")),
     snd (loadApps (current_callback (list_view "All")) Fulfilled Completes demo_store
            (list_view "All"))) /\
  errorMsg (snd (loadApps (current_callback (list_view "All")) Fulfilled Completes
                   demo_store (list_view "All"))) = None /\
  Permutation (apps (snd (loadApps (current_callback (list_view "All")) Fulfilled
                            Completes demo_store (list_view "All"))))
    (records (db demo_store)).
Proof.
  assert (Hr : reachable any_app demo_store)
    by (apply run_reachable; [constructor|reflexivity]).
  assert (Hl : cb_loading (current_callback (list_view "All")) = false) by reflexivity.
  assert (H : loadApps (current_callback (list_view "All")) Fulfilled Completes demo_store
                (list_view "All") =
    (fst (loadApps (current_callback (list_view "All")) Fulfilled Completes demo_store
            (list_view "All")),
     snd (loadApps (current_callback (list_view "All")) Fulfilled Completes demo_store
            (list_view "All")))) by reflexivity.
  assert (He : errorMsg (snd (loadApps (current_callback (list_view "All")) Fulfilled
                                Completes demo_store (list_view "All"))) = None)
    by reflexivity.
  split; [exact Hr|]. split; [exact Hl|]. split; [exact H|]. split; [exact He|].
  exact (proj1 (proj1 (proj2 (proj2 (proj2
    (loadApps_shows_newest_first any_app (current_callback (list_view "All")) Fulfilled
       Completes demo_store (list_view "All") _ _ Hr Hl H He)))) eq_refl)).
Defined.

(** X8 (AppList.loadApps): a failed load keeps the apps shown before,
    records the error, clears the loading flag and leaves the records alone;
    the cached handle is dropped when opening the database failed, and kept
    when the engine failed the read itself. *)
Theorem loadApps_failure_keeps_list cb o rq s st s1 st1 e :
  cb_loading cb = false -> loadApps cb o rq s st = (s1, st1) ->
  errorMsg st1 = Some e ->
  apps st1 = apps st /\ loading st1 = false /\
  selectedCategory st1 = selectedCategory st /\ db s1 = db s /\
  ((snd (getDB o s) = Err e /\ dbPromise s1 = None) \/
   (snd (getDB o s) = Ok tt /\ rq = Fails e /\ dbPromise s1 = Some Fulfilled)).
Proof.
  intros Hl H He. unfold loadApps in H. rewrite Hl in H.
  assert (forall s' e',
            s' = fst (getDB o s) ->
            (snd (getDB o s) = Err e' \/ (snd (getDB o s) = Ok tt /\ rq = Fails e')) ->
            db s' = db s /\
            ((snd (getDB o s) = Err e' /\ dbPromise s' = None) \/
             (snd (getDB o s) = Ok tt /\ rq = Fails e' /\ dbPromise s' = Some Fulfilled)))
    as Hstate.
  { intros s' e' -> [Hg|[Hg Hrq]].
    - destruct (getDB_err_state _ _ _ Hg) as [Hp Hdb]. tauto.
    - split; [apply getDB_db|]. right. split; [exact Hg|]. split; [exact Hrq|].
      destruct (getDB o s) as [s2 r] eqn:E. simpl in Hg |- *. subst r.
      exact (getDB_ok_cached _ _ _ _ E). }
  destruct (String.eqb (cb_category cb) "All").
  - destruct (getAllApps o rq s) as [s' [l|e']] eqn:Hg; injection H as <- <-;
      [discriminate|]. simpl in He. injection He as ->.
    apply getAllApps_err in Hg as [Hs' Hg].
    destruct (Hstate s' e Hs' Hg) as [Hdb Hc]. simpl. tauto.
  - destruct (getAppsByCategory o rq (cb_category cb) s) as [s' [l|e']] eqn:Hg;
      injection H as <- <-; [discriminate|]. simpl in He. injection He as ->.
    apply getAppsByCategory_err in Hg as [Hs' Hg].
    destruct (Hstate s' e Hs' Hg) as [Hdb Hc]. simpl. tauto.
Qed.

Lemma loadApps_failure_keeps_list_witness :
  cb_loading (current_callback (list_view "Games")) = false /\
  loadApps (current_callback (list_view "Games")) Fulfilled
      (Fails (OpenError "quota")) demo_store (list_view "Games") =
    (fst (loadApps (current_callback (list_view "Games")) Fulfilled
            (Fails (OpenError "quota")) demo_store (list_view "Games")),
     snd (loadApps (current_callback (list_view "Games")) Fulfilled
            (Fails (OpenError "quota")) demo_store (list_view "Games"))) /\
  errorMsg (snd (loadApps (current_callback (list_view "Games")) Fulfilled
                   (Fails (OpenError "quota")) demo_store (list_view "Games")))
    = Some (OpenError "quota") /\
  (apps (snd (loadApps (current_callback (list_view "Games")) Fulfilled
                (Fails (OpenError "quota")) demo_store (list_view "Games")))
     = apps (list_view "Games") /\
   loading (snd (loadApps (current_callback (list_view "Games")) Fulfilled
                   (Fails (OpenError "quota")) demo_store (list_view "Games"))) = false /\
   selectedCategory (snd (loadApps (current_callback (list_view "Games")) Fulfilled
                            (Fails (OpenError "quota")) demo_store (list_view "Games")))
     = selectedCategory (list_view "Games") /\
   db (fst (loadApps (current_callback (list_view "Games")) Fulfilled
              (Fails (OpenError "quota")) demo_store (list_view "Games"))) = db demo_store /\
   ((snd (getDB Fulfilled demo_store) = Err (OpenError "quota") /\
     dbPromise (fst (loadApps (current_callback (list_view "Games")) Fulfilled
                       (Fails (OpenError "quota")) demo_store (list_view "Games"))) = None) \/
    (snd (getDB Fulfilled demo_store) = Ok tt /\
     Fails (OpenError "quota") = Fails (OpenError "quota") /\
     dbPromise (fst (loadApps (current_callback (list_view "Games")) Fulfilled
                       (Fails (OpenError "quota")) demo_store (list_view "Games")))
       = Some Fulfilled))).
Proof.
  assert (Hl : cb_loading (current_callback (list_view "Games")) = false) by reflexivity.
  assert (H : loadApps (current_callback (list_view "Games")) Fulfilled
      (Fails (OpenError "quota")) demo_store (list_view "Games") =
    (fst (loadApps (current_callback (list_view "Games")) Fulfilled
            (Fails (OpenError "quota")) demo_store (list_view "Games")),
     snd (loadApps (current_callback (list_view "Games")) Fulfilled
            (Fails (OpenError "quota")) demo_store (list_view "Games"))))
    by reflexivity.
  assert (He : errorMsg (snd (loadApps (current_callback (list_view "Games")) Fulfilled
                   (Fails (OpenError "quota")) demo_store (list_view "Games")))
    = Some (OpenError "quota")) by reflexivity.
  split; [exact Hl|]. split; [exact H|]. split; [exact He|].
  exact (loadApps_failure_keeps_list (current_callback (list_view "Games")) Fulfilled
    (Fails (OpenError "quota")) demo_store (list_view "Games") _ _ _ Hl H He).
Defined.

(** X9 (AppList.handleDelete): a confirmed delete of an app with a non-zero
    id removes every record with that id from the store when the engine
    completes the delete; if the reload then runs (its callback's captured
    [loading] is false) and completes, the list shown holds no app with that
    id. When [deleteApp] fails, the records and the list are left as they
    were. *)
Theorem handleDelete_confirmed_removal cb o rqD rqL app k s st s1 st1 :
  id app = Some k -> k <> 0 ->
  handleDelete cb o rqD rqL true app s st = (s1, st1) ->
  (snd (deleteApp o rqD k s) = Ok tt ->
     Forall (fun r => has_id k r = false) (records (db s1)) /\
     (cb_loading cb = false -> rqL = Completes ->
        Forall (fun r => has_id k r = false) (apps st1) /\ errorMsg st1 = None)) /\
  (forall e, snd (deleteApp o rqD k s) = Err e -> db s1 = db s /\ st1 = st).
Proof.
  intros Hk Hk0 H. unfold handleDelete in H.
  rewrite Hk in H. apply Z.eqb_neq in Hk0. rewrite Hk0 in H. simpl in H.
  destruct (deleteApp o rqD k s) as [s' [u|e]] eqn:Hd; simpl.
  - destruct u. split; [|intros e' C; discriminate]. intros _.
    pose proof (deleted_absent _ _ _ _ _ Hd) as Habs.
    apply deleteApp_ok in Hd as [_ Hp].
    assert (db s1 = db s') as Hdb.
    { change s1 with (fst (s1, st1)). rewrite <- H. unfold loadApps.
      destruct (cb_loading cb); [reflexivity|].
      destruct (String.eqb (cb_category cb) "All").
      - rewrite <- (getAllApps_db o rqL s').
        destruct (getAllApps o rqL s') as [s2 [l|e]]; reflexivity.
      - rewrite <- (getAppsByCategory_db o rqL (cb_category cb) s').
        destruct (getAppsByCategory o rqL (cb_category cb) s') as [s2 [l|e]];
          reflexivity. }
    split; [rewrite Hdb; exact Habs|].
    intros Hl ->. unfold loadApps in H. rewrite Hl in H.
    destruct (String.eqb (cb_category cb) "All").
    + rewrite (getAllApps_cached o s' Hp) in H. injection H as <- <-. simpl.
      split; [|reflexivity].
      apply Forall_rev, Forall_getAllFromIndex, Habs.
    + rewrite (getAppsByCategory_cached o _ s' Hp) in H. injection H as <- <-. simpl.
      split; [|reflexivity].
      apply Forall_rev, Forall_getAllFromIndex, Habs.
  - injection H as <- <-. split; [intros C; discriminate|].
    intros e' _. split; [|reflexivity].
    apply deleteApp_err in Hd as [-> _]. apply getDB_db.
Qed.

Lemma handleDelete_confirmed_removal_witness :
  id (with_id 2 (sample "Tools")) = Some 2 /\ 2 <> 0 /\
  handleDelete (current_callback (list_view "All")) Fulfilled Completes Completes true
      (with_id 2 (sample "Tools")) demo_store (list_view "All") =
    (fst (handleDelete (current_callback (list_view "All")) Fulfilled Completes Completes
            true (with_id 2 (sample "Tools")) demo_store (list_view "All")),
     snd (handleDelete (current_callback (list_view "All")) Fulfilled Completes Completes
            true (with_id 2 (sample "Tools")) demo_store (list_view "All"))) /\
  Forall (fun r => has_id 2 r = false)
    (apps (snd (handleDelete (current_callback (list_view "All")) Fulfilled Completes
                  Completes true (with_id 2 (sample "Tools")) demo_store
                  (list_view "All")))).
Proof.
  assert (H1 : id (with_id 2 (sample "Tools")) = Some 2) by reflexivity.
  assert (H2 : 2 <> 0) by lia.
  assert (H3 : handleDelete (current_callback (list_view "All")) Fulfilled Completes
                 Completes true (with_id 2 (sample "Tools")) demo_store (list_view "All") =
    (fst (handleDelete (current_callback (list_view "All")) Fulfilled Completes Completes
            true (with_id 2 (sample "Tools")) demo_store (list_view "All")),
     snd (handleDelete (current_callback (list_view "All")) Fulfilled Completes Completes
            true (with_id 2 (sample "Tools")) demo_store (list_view "All"))))
    by reflexivity.
  split; [exact H1|]. split; [exact H2|]. split; [exact H3|].
  exact (proj1 (proj2 (proj1 (handleDelete_confirmed_removal
    (current_callback (list_view "All")) Fulfilled Completes Completes
    (with_id 2 (sample "Tools")) 2 demo_store (list_view "All") _ _ H1 H2 H3)
    eq_refl) eq_refl eq_refl)).
Defined.

(** X10 (AppList.handlePreview, canPreview, the preview modal, MediaPreview):
    only previewable files open the modal; an opened preview is the HTML
    viewer exactly for "text/html"; for any other file it is the error
    message once MediaPreview has recorded an error, and before that the
    audio player exactly for "audio/..." and the video element exactly for
    "video/...". *)
Theorem preview_routing app prev mediaError :
  (canPreview (fileType app) = false -> handlePreview app prev = prev) /\
  (canPreview (fileType app) = true ->
     handlePreview app prev = Some app /\
     (viewer app mediaError = HTMLPreview <-> fileType app = "text/html"%string) /\
     (viewer app mediaError = MediaErrorMessage <->
        fileType app <> "text/html"%string /\ mediaError <> None) /\
     (mediaError = None ->
        (viewer app mediaError = AudioPlayer <->
           String.prefix "audio/" (fileType app) = true) /\
        (viewer app mediaError = VideoPlayer <->
           String.prefix "video/" (fileType app) = true))).
Proof.
  unfold handlePreview, canPreview, viewer.
  destruct (String.eqb_spec (fileType app) "text/html") as [E|E].
  - rewrite E. simpl. split; [discriminate|]. intros _.
    split; [reflexivity|]. split; [split; [reflexivity|intros _; reflexivity]|].
    split; [split; [discriminate|intros [C _]; contradiction]|].
    intros _. split; split; discriminate.
  - split.
    + destruct (String.prefix "audio/" (fileType app));
        destruct (String.prefix "video/" (fileType app)); simpl;
        (discriminate || (intros; reflexivity)).
    + intros Hc. rewrite Hc. split; [reflexivity|].
      split; [split; [destruct mediaError;
                      [discriminate|destruct (String.prefix "audio/" (fileType app));
                                    discriminate]|intros C; contradiction]|].
      split.
      * destruct mediaError as [m|].
        -- split; [intros _; split; [exact E|discriminate]|reflexivity].
        -- split; [destruct (String.prefix "audio/" (fileType app)); discriminate|].
           intros [_ C]. contradiction.
      * intros ->. simpl in Hc.
        destruct (String.prefix "audio/" (fileType app)) eqn:A;
          destruct (String.prefix "video/" (fileType app)) eqn:V; simpl in Hc;
          try discriminate; split; split; intros; try reflexivity; try discriminate.
        rewrite (audio_not_video _ A) in V. discriminate.
Qed.

Lemma preview_routing_witness :
  canPreview (fileType (with_id 3 demo_audio_app)) = true /\
  viewer (with_id 3 demo_audio_app) (Some "Failed to load media file"%string) =
    MediaErrorMessage /\
  (handlePreview (with_id 3 demo_audio_app) None = Some (with_id 3 demo_audio_app) /\
   (viewer (with_id 3 demo_audio_app) None = HTMLPreview <->
      fileType (with_id 3 demo_audio_app) = "text/html"%string) /\
   (viewer (with_id 3 demo_audio_app) None = MediaErrorMessage <->
      fileType (with_id 3 demo_audio_app) <> "text/html"%string /\ @None string <> None) /\
   (@None string = None ->
      (viewer (with_id 3 demo_audio_app) None = AudioPlayer <->
         String.prefix "audio/" (fileType (with_id 3 demo_audio_app)) = true) /\
      (viewer (with_id 3 demo_audio_app) None = VideoPlayer <->
         String.prefix "video/" (fileType (with_id 3 demo_audio_app)) = true))).
Proof.
  assert (H : canPreview (fileType (with_id 3 demo_audio_app)) = true) by reflexivity.
  split; [exact H|]. split.
  - apply (proj1 (proj2 (proj2 (proj2 (preview_routing (with_id 3 demo_audio_app) None
             (Some "Failed to load media file"%string)) H)))).
    split; [discriminate|discriminate].
  - exact (proj2 (preview_routing (with_id 3 demo_audio_app) None None) H).
Defined.

(** X11 (MediaPreview.toggleMute, handleVolumeChange): after any sequence of
    mute toggles and slider moves the audio plays at the volume the slider
    shows (0 while muted, the remembered volume once unmuted); for video,
    where there is no Howl, the controls change nothing. *)
Theorem player_sound_follows_slider evs :
  (exists q, sound (fold_left player_step evs (initial_player true)) = Some q /\
     Qeq q (slider_value (fold_left player_step evs (initial_player true)))) /\
  fold_left player_step evs (initial_player false) = initial_player false.
Proof.
  split.
  - assert (H : exists q, sound (initial_player true) = Some q /\
                  Qeq q (slider_value (initial_player true)))
      by (exists 1%Q; split; reflexivity).
    revert H. generalize (initial_player true).
    induction evs as [|ev evs IH]; simpl; intros p H; [exact H|].
    apply IH, player_step_sync, H.
  - induction evs as [|ev evs IH] using rev_ind; [reflexivity|].
    rewrite fold_left_app, IH. simpl. apply player_step_silent. reflexivity.
Qed.

(** X12 (AppUpload.resetForm, handleIconChange): whatever files are picked
    for the icon, starting from the reset form, the icon the form holds is
    absent or has an "image/..." type. *)
Theorem form_icon_always_image sels :
  icon_ok (fold_left (fun form sel => handleIconChange sel form) sels resetForm).
Proof.
  assert (H : icon_ok resetForm) by exact I.
  revert H. generalize resetForm.
  induction sels as [|sel sels IH]; simpl; intros form H; [exact H|].
  apply IH. unfold handleIconChange.
  destruct sel as [f|]; [|exact H].
  destruct (String.prefix "image/" (ftype f)) eqn:E; [exact E|exact H].
Qed.

(** X13 (AppUpload.handleSubmit, addApp): without a file nothing happens;
    otherwise either the form is reset and the store holds a new record, under
    a fresh identifier, with the file's bytes, name, type and size, the form's
    name and category, the user's id, the store's upload time (not the
    client's) and an image icon type if any; or the form is kept and the
    records are unchanged. *)
Theorem handleSubmit_outcome acc o rq clientDate now userId form s :
  (ffile form = None -> handleSubmit o rq clientDate now userId form s = (s, form)) /\
  (forall f s1 form1, reachable acc s -> ffile form = Some f -> icon_ok form ->
     handleSubmit o rq clientDate now userId form s = (s1, form1) ->
     (form1 = resetForm /\
      exists k r, id r = Some k /\ In r (records (db s1)) /\
        Forall (fun x => key x <> k) (records (db s)) /\
        name r = appName form /\ category r = fcategory form /\
        file r = fbytes f /\ fileName r = fname f /\ fileType r = ftype f /\
        fileSize r = Z.of_nat (List.length (file r)) /\
        uploadDate r = now /\ ownerId r = userId /\
        match iconType r with
        | Some t => String.prefix "image/" t = true
        | None => True
        end) \/
     (form1 = form /\ db s1 = db s)).
Proof.
  split; [intros H; unfold handleSubmit; rewrite H; reflexivity|].
  intros f s1 form1 Hr Hf Hicon H. unfold handleSubmit in H. rewrite Hf in H.
  destruct (addApp o rq now (upload_record form f clientDate userId) s) as [s' [k|e]] eqn:Ha;
    injection H as <- <-.
  - left. split; [reflexivity|].
    pose proof (addApp_inserts acc _ _ _ _ _ _ _ Hr Ha) as (Hrec & Hfresh & _).
    exists k, (with_id k (with_uploadDate now (upload_record form f clientDate userId))).
    split; [reflexivity|]. split.
    { rewrite Hrec. apply (Permutation_in _ (Permutation_sym (store_insert_perm _ _))).
      left; reflexivity. }
    split; [exact Hfresh|].
    do 8 (split; [reflexivity|]).
    unfold icon_ok in Hicon. simpl. destruct (ficon form) as [i|]; [exact Hicon|exact I].
  - right. split; [reflexivity|]. exact (addApp_err_db _ _ _ _ _ _ _ Ha).
Qed.

Lemma handleSubmit_outcome_witness :
  reachable any_app init_store /\ ffile demo_form = Some demo_file /\ icon_ok demo_form /\
  handleSubmit Fulfilled Completes "client-date" "2026-01-05T09:00:00.000Z" "user1" demo_form
      init_store =
    (fst (handleSubmit Fulfilled Completes "client-date" "2026-01-05T09:00:00.000Z" "user1"
            demo_form init_store),
     snd (handleSubmit Fulfilled Completes "client-date" "2026-01-05T09:00:00.000Z" "user1"
            demo_form init_store)) /\
  snd (handleSubmit Fulfilled Completes "client-date" "2026-01-05T09:00:00.000Z" "user1"
         demo_form init_store) = resetForm.
Proof.
  assert (Hr : reachable any_app init_store) by constructor.
  assert (Hf : ffile demo_form = Some demo_file) by reflexivity.
  assert (Hi : icon_ok demo_form) by reflexivity.
  assert (H : handleSubmit Fulfilled Completes "client-date" "2026-01-05T09:00:00.000Z" "user1"
      demo_form init_store =
    (fst (handleSubmit Fulfilled Completes "client-date" "2026-01-05T09:00:00.000Z" "user1"
            demo_form init_store),
     snd (handleSubmit Fulfilled Completes "client-date" "2026-01-05T09:00:00.000Z" "user1"
            demo_form init_store))) by reflexivity.
  split; [exact Hr|]. split; [exact Hf|]. split; [exact Hi|]. split; [exact H|].
  destruct (proj2 (handleSubmit_outcome any_app Fulfilled Completes "client-date"
    "2026-01-05T09:00:00.000Z" "user1" demo_form init_store) _ _ _ Hr Hf Hi H)
    as [[Hreset _]|[Hkept _]].
  - exact Hreset.
  - exfalso. vm_compute in Hkept. discriminate.
Defined.

End Extras.
